(** * micmec/pes/cell.c: the periodic-cell geometry kernel

    A shallow embedding of [cell.c] and the properties its specification
    states about it.

    Conventions of the embedding.

    - The C type [double] is an abstract carrier [D] with the operations
      the file uses ([Double D]).  Every function of [cell.c] is written
      once, over that interface, and read in two arithmetics: the real
      numbers (exact arithmetic, [R_double]) and IEEE-754 binary64
      ([binary64_double]).
    - [int] and [long] are [Z]; no operation of the file can overflow an
      [int] for [|nvec| < 2^31 / 3], and a [double] outside the range of
      [long] has no defined conversion in C: the model converts in [Z].
    - A C array is a [list]; [a.[i]] reads it and [<[i:=v]> a] stores into
      it.  A read or a store past the end is undefined in C; the model
      reads the default and stores nothing there, and the theorems state
      the buffer sizes they need.
    - A [void] function that writes through a pointer returns the new
      value of every object it can reach through its non-const pointer
      parameters, in the order of the parameters.  Distinct pointer
      parameters are taken to point to disjoint objects. *)

From Stdlib Require Import Floats.
From Stdlib Require Import ZArith Reals Lra Lia.
From stdpp Require Import base list.

Set Default Proof Using "Type*".

(** ** The arithmetic of [double] *)

Class Double (D : Type) := {
  d_zero : D;                (* 0.0, and the int 0 converted *)
  d_one : D;                 (* 1.0 *)
  d_half : D;                (* 0.5 *)
  d_add : D -> D -> D;
  d_sub : D -> D -> D;
  d_mul : D -> D -> D;
  d_div : D -> D -> D;
  d_neg : D -> D;            (* unary minus *)
  d_sqrt : D -> D;           (* sqrt of math.h *)
  d_fabs : D -> D;           (* fabs of math.h *)
  d_ceil : D -> D;           (* ceil of math.h *)
  d_gt : D -> D -> bool;     (* x > y *)
  d_of_long : Z -> D;        (* conversion long -> double *)
  d_to_long : D -> Z         (* conversion double -> long *)
}.

Declare Scope double_scope.
Delimit Scope double_scope with D.
Notation "x + y" := (d_add x y) : double_scope.
Notation "x - y" := (d_sub x y) : double_scope.
Notation "x * y" := (d_mul x y) : double_scope.
Notation "x / y" := (d_div x y) : double_scope.
Notation "- x" := (d_neg x) : double_scope.

#[export] Instance double_inhabited {D : Type} `{Double D} : Inhabited D :=
  populate d_zero.

(** [a.[i]]: the element [i] of the array [a]. *)
Notation "a .[ i ]" := (lookup_total i%nat a)
  (at level 1, left associativity, format "a .[ i ]").

(** [for (i = 0; i < n; i++) body]: the body runs for [i = 0 .. n-1], and
    not at all when [n <= 0]. *)
Definition for_lt {S : Type} (n : Z) (body : nat -> S -> S) (s : S) : S :=
  foldl (fun s i => body i s) s (seq 0 (Z.to_nat n)).

(** ** The exact arithmetic: real numbers *)

(** The largest integer not above [x]. *)
Definition Zfloor (x : R) : Z := (up x - 1)%Z.

(** The smallest integer not below [x]. *)
Definition Zceil (x : R) : Z := (- Zfloor (- x))%Z.

(** Conversion of a real to an integer discards the fractional part. *)
Definition Ztrunc (x : R) : Z :=
  if Rle_dec 0 x then Zfloor x else Zceil x.

Definition Rgtb (x y : R) : bool := if Rgt_dec x y then true else false.

#[export] Instance R_double : Double R := {|
  d_zero := 0%R;
  d_one := 1%R;
  d_half := (1 / 2)%R;
  d_add := Rplus;
  d_sub := Rminus;
  d_mul := Rmult;
  d_div := Rdiv;
  d_neg := Ropp;
  d_sqrt := R_sqrt.sqrt;
  d_fabs := Rabs;
  d_ceil := fun x => IZR (Zceil x);
  d_gt := Rgtb;
  d_of_long := IZR;
  d_to_long := Ztrunc
|}.

(** ** IEEE-754 binary64 *)

(** The binary64 number nearest to [z] ([z] itself when [|z| <= 2^53]). *)
Definition Z2float (z : Z) : float :=
  SF2Prim (binary_normalize prec emax z 0 false).

(** [ceil] on binary64: a number with no fractional bit, an infinity, a
    zero or a NaN is returned as it is; otherwise the magnitude
    [m * 2^e] ([e < 0]) is cut at the binary point and rounded up.  A
    negative number above [-1] gives [-0]. *)
Definition float_ceil (x : float) : float :=
  match Prim2SF x with
  | S754_finite s m e =>
      if (0 <=? e)%Z then x
      else
        let q := Z.shiftr (Zpos m) (- e) in
        if s then (if (q =? 0)%Z then (-0)%float else Z2float (- q))
        else Z2float (if (Zpos m =? Z.shiftl q (- e))%Z then q else q + 1)
  | _ => x
  end.

(** Conversion to [long] truncates toward zero (an infinity or a NaN has
    no defined conversion; the model gives 0). *)
Definition float_to_long (x : float) : Z :=
  match Prim2SF x with
  | S754_finite s m e =>
      let a := Z.shiftl (Zpos m) e in if s then (- a)%Z else a
  | _ => 0%Z
  end.

#[export] Instance binary64_double : Double float := {|
  d_zero := 0%float;
  d_one := 1%float;
  d_half := 0.5%float;
  d_add := PrimFloat.add;
  d_sub := PrimFloat.sub;
  d_mul := PrimFloat.mul;
  d_div := PrimFloat.div;
  d_neg := PrimFloat.opp;
  d_sqrt := PrimFloat.sqrt;
  d_fabs := PrimFloat.abs;
  d_ceil := float_ceil;
  d_gt := fun x y => PrimFloat.ltb y x;
  d_of_long := Z2float;
  d_to_long := float_to_long
|}.

(** ** cell.c *)

Section Cell.
Context {D : Type} `{Double D}.
Local Open Scope double_scope.

(** Modelled from the spec: [cell_type], the struct that [cell.h] declares
    (the header is not among the sources).  Section 3 of the specification
    lists its fields; [cell.c] indexes [rvecs] and [gvecs] up to 8 and
    the spacings up to 2. *)
Record cell_type := {
  rvecs : list D;       (* double rvecs[9] *)
  gvecs : list D;       (* double gvecs[9] *)
  rspacings : list D;   (* double rspacings[3] *)
  gspacings : list D;   (* double gspacings[3] *)
  volume : D;           (* double volume *)
  nvec : Z              (* int nvec *)
}.

(** The sizes the struct declaration fixes. *)
Definition cell_sized (cell : cell_type) : Prop :=
  length (rvecs cell) = 9%nat /\ length (gvecs cell) = 9%nat /\
  length (rspacings cell) = 3%nat /\ length (gspacings cell) = 3%nat.

(** The l-values of the struct: [cell->nvec = v], [cell->rvecs[i] = v],
    and so on. *)
Definition store_nvec (cell : cell_type) (v : Z) : cell_type :=
  {| rvecs := rvecs cell; gvecs := gvecs cell; rspacings := rspacings cell;
     gspacings := gspacings cell; volume := volume cell; nvec := v |}.

Definition store_rvecs (cell : cell_type) (i : nat) (v : D) : cell_type :=
  {| rvecs := <[i:=v]> (rvecs cell); gvecs := gvecs cell;
     rspacings := rspacings cell; gspacings := gspacings cell;
     volume := volume cell; nvec := nvec cell |}.

Definition store_gvecs (cell : cell_type) (i : nat) (v : D) : cell_type :=
  {| rvecs := rvecs cell; gvecs := <[i:=v]> (gvecs cell);
     rspacings := rspacings cell; gspacings := gspacings cell;
     volume := volume cell; nvec := nvec cell |}.

Definition store_rspacings (cell : cell_type) (i : nat) (v : D) : cell_type :=
  {| rvecs := rvecs cell; gvecs := gvecs cell;
     rspacings := <[i:=v]> (rspacings cell); gspacings := gspacings cell;
     volume := volume cell; nvec := nvec cell |}.

Definition store_gspacings (cell : cell_type) (i : nat) (v : D) : cell_type :=
  {| rvecs := rvecs cell; gvecs := gvecs cell;
     rspacings := rspacings cell; gspacings := <[i:=v]> (gspacings cell);
     volume := volume cell; nvec := nvec cell |}.

Definition store_volume (cell : cell_type) (v : D) : cell_type :=
  {| rvecs := rvecs cell; gvecs := gvecs cell; rspacings := rspacings cell;
     gspacings := gspacings cell; volume := v; nvec := nvec cell |}.

(** [void cell_update(cell_type* cell, double *rvecs, double *gvecs,
    int nvec)] *)
Definition cell_update (cell : cell_type) (rvecs gvecs : list D) (nvec : Z)
  : cell_type :=
  (* Copy everything. *)
  let cell := store_nvec cell nvec in
  let cell :=
    for_lt 9 (fun i cell =>
      let cell := store_rvecs cell i rvecs.[i] in
      store_gvecs cell i gvecs.[i]) cell in
  (* Compute the spacings. *)
  let cell :=
    for_lt 3 (fun i cell =>
      let cell := store_rspacings cell i
        (d_one / d_sqrt (gvecs.[3*i] * gvecs.[3*i]
                         + gvecs.[3*i+1] * gvecs.[3*i+1]
                         + gvecs.[3*i+2] * gvecs.[3*i+2])) in
      store_gspacings cell i
        (d_one / d_sqrt (rvecs.[3*i] * rvecs.[3*i]
                         + rvecs.[3*i+1] * rvecs.[3*i+1]
                         + rvecs.[3*i+2] * rvecs.[3*i+2]))) cell in
  (* Compute the volume: a switch with no default. *)
  if (nvec =? 0)%Z then
    store_volume cell d_zero
  else if (nvec =? 1)%Z then
    store_volume cell
      (d_sqrt (rvecs.[0] * rvecs.[0] + rvecs.[1] * rvecs.[1]
               + rvecs.[2] * rvecs.[2]))
  else if (nvec =? 2)%Z then
    let tmp := rvecs.[0] * rvecs.[3] + rvecs.[1] * rvecs.[4]
               + rvecs.[2] * rvecs.[5] in
    let tmp :=
      (rvecs.[0] * rvecs.[0] + rvecs.[1] * rvecs.[1] + rvecs.[2] * rvecs.[2])
      * (rvecs.[3] * rvecs.[3] + rvecs.[4] * rvecs.[4] + rvecs.[5] * rvecs.[5])
      - tmp * tmp in
    if d_gt tmp d_zero then store_volume cell (d_sqrt tmp)
    else store_volume cell d_zero
  else if (nvec =? 3)%Z then
    store_volume cell
      (d_fabs (rvecs.[0] * (rvecs.[4] * rvecs.[8] - rvecs.[5] * rvecs.[7])
               + rvecs.[1] * (rvecs.[5] * rvecs.[6] - rvecs.[3] * rvecs.[8])
               + rvecs.[2] * (rvecs.[3] * rvecs.[7] - rvecs.[4] * rvecs.[6])))
  else cell.

(** [void cell_mic(double *delta, cell_type* cell)], with the value [x]
    takes at each of its assignments recorded beside the result ([x] is a
    local of the C function; the record changes nothing it computes).
    The result is [(delta, cell, values of x)]. *)
Definition cell_mic_trace (delta : list D) (cell : cell_type)
  : list D * cell_type * list D :=
  let nvec := cell.(nvec) in
  if (nvec =? 0)%Z then (delta, cell, []) else
  let rvecs := cell.(rvecs) in
  let gvecs := cell.(gvecs) in
  let x := d_ceil (gvecs.[0] * delta.[0] + gvecs.[1] * delta.[1]
                   + gvecs.[2] * delta.[2] - d_half) in
  let xs := [x] in
  let delta := <[0%nat := delta.[0] - x * rvecs.[0]]> delta in
  let delta := <[1%nat := delta.[1] - x * rvecs.[1]]> delta in
  let delta := <[2%nat := delta.[2] - x * rvecs.[2]]> delta in
  if (nvec =? 1)%Z then (delta, cell, xs) else
  let x := d_ceil (gvecs.[3] * delta.[0] + gvecs.[4] * delta.[1]
                   + gvecs.[5] * delta.[2] - d_half) in
  let xs := xs ++ [x] in
  let delta := <[0%nat := delta.[0] - x * rvecs.[3]]> delta in
  let delta := <[1%nat := delta.[1] - x * rvecs.[4]]> delta in
  let delta := <[2%nat := delta.[2] - x * rvecs.[5]]> delta in
  if (nvec =? 2)%Z then (delta, cell, xs) else
  let x := d_ceil (gvecs.[6] * delta.[0] + gvecs.[7] * delta.[1]
                   + gvecs.[8] * delta.[2] - d_half) in
  let xs := xs ++ [x] in
  let delta := <[0%nat := delta.[0] - x * rvecs.[6]]> delta in
  let delta := <[1%nat := delta.[1] - x * rvecs.[7]]> delta in
  let delta := <[2%nat := delta.[2] - x * rvecs.[8]]> delta in
  (delta, cell, xs).

(** [void cell_mic(double *delta, cell_type* cell)]: the new [delta] and
    the cell. *)
Definition cell_mic (delta : list D) (cell : cell_type)
  : list D * cell_type :=
  let nvec := cell.(nvec) in
  if (nvec =? 0)%Z then (delta, cell) else
  let rvecs := cell.(rvecs) in
  let gvecs := cell.(gvecs) in
  let x := d_ceil (gvecs.[0] * delta.[0] + gvecs.[1] * delta.[1]
                   + gvecs.[2] * delta.[2] - d_half) in
  let delta := <[0%nat := delta.[0] - x * rvecs.[0]]> delta in
  let delta := <[1%nat := delta.[1] - x * rvecs.[1]]> delta in
  let delta := <[2%nat := delta.[2] - x * rvecs.[2]]> delta in
  if (nvec =? 1)%Z then (delta, cell) else
  let x := d_ceil (gvecs.[3] * delta.[0] + gvecs.[4] * delta.[1]
                   + gvecs.[5] * delta.[2] - d_half) in
  let delta := <[0%nat := delta.[0] - x * rvecs.[3]]> delta in
  let delta := <[1%nat := delta.[1] - x * rvecs.[4]]> delta in
  let delta := <[2%nat := delta.[2] - x * rvecs.[5]]> delta in
  if (nvec =? 2)%Z then (delta, cell) else
  let x := d_ceil (gvecs.[6] * delta.[0] + gvecs.[7] * delta.[1]
                   + gvecs.[8] * delta.[2] - d_half) in
  let delta := <[0%nat := delta.[0] - x * rvecs.[6]]> delta in
  let delta := <[1%nat := delta.[1] - x * rvecs.[7]]> delta in
  let delta := <[2%nat := delta.[2] - x * rvecs.[8]]> delta in
  (delta, cell).

(** [void cell_to_center(double *cart, cell_type* cell, long *center)]:
    [cart], the cell and the new [center]. *)
Definition cell_to_center (cart : list D) (cell : cell_type) (center : list Z)
  : list D * cell_type * list Z :=
  let nvec := cell.(nvec) in
  if (nvec =? 0)%Z then (cart, cell, center) else
  let gvecs := cell.(gvecs) in
  let center := <[0%nat := d_to_long (- d_ceil (gvecs.[0] * cart.[0]
                   + gvecs.[1] * cart.[1] + gvecs.[2] * cart.[2] - d_half))]>
                center in
  if (nvec =? 1)%Z then (cart, cell, center) else
  let center := <[1%nat := d_to_long (- d_ceil (gvecs.[3] * cart.[0]
                   + gvecs.[4] * cart.[1] + gvecs.[5] * cart.[2] - d_half))]>
                center in
  if (nvec =? 2)%Z then (cart, cell, center) else
  let center := <[2%nat := d_to_long (- d_ceil (gvecs.[6] * cart.[0]
                   + gvecs.[7] * cart.[1] + gvecs.[8] * cart.[2] - d_half))]>
                center in
  (cart, cell, center).

(** [void cell_add_vec(double *delta, cell_type* cell, long* r)]: the new
    [delta], the cell and [r]. *)
Definition cell_add_vec (delta : list D) (cell : cell_type) (r : list Z)
  : list D * cell_type * list Z :=
  let nvec := cell.(nvec) in
  if (nvec =? 0)%Z then (delta, cell, r) else
  let rvecs := cell.(rvecs) in
  let delta := <[0%nat := delta.[0] + d_of_long r.[0] * rvecs.[0]]> delta in
  let delta := <[1%nat := delta.[1] + d_of_long r.[0] * rvecs.[1]]> delta in
  let delta := <[2%nat := delta.[2] + d_of_long r.[0] * rvecs.[2]]> delta in
  if (nvec =? 1)%Z then (delta, cell, r) else
  let delta := <[0%nat := delta.[0] + d_of_long r.[1] * rvecs.[3]]> delta in
  let delta := <[1%nat := delta.[1] + d_of_long r.[1] * rvecs.[4]]> delta in
  let delta := <[2%nat := delta.[2] + d_of_long r.[1] * rvecs.[5]]> delta in
  if (nvec =? 2)%Z then (delta, cell, r) else
  let delta := <[0%nat := delta.[0] + d_of_long r.[2] * rvecs.[6]]> delta in
  let delta := <[1%nat := delta.[1] + d_of_long r.[2] * rvecs.[7]]> delta in
  let delta := <[2%nat := delta.[2] + d_of_long r.[2] * rvecs.[8]]> delta in
  (delta, cell, r).

(** The r-values [cell->rvecs[i]] and so on, for the functions whose
    parameters carry the names of the fields. *)
Definition load_rvecs (cell : cell_type) (i : nat) : D := (rvecs cell).[i].
Definition load_gvecs (cell : cell_type) (i : nat) : D := (gvecs cell).[i].
Definition load_rspacings (cell : cell_type) (i : nat) : D :=
  (rspacings cell).[i].
Definition load_gspacings (cell : cell_type) (i : nat) : D :=
  (gspacings cell).[i].

(** [int cell_get_nvec(cell_type* cell)] *)
Definition cell_get_nvec (cell : cell_type) : Z := cell.(nvec).

(** [double cell_get_volume(cell_type* cell)] *)
Definition cell_get_volume (cell : cell_type) : D := cell.(volume).

(** The four copy functions: the cell and the new contents of the output
    buffer.  [full] is the C [int] used as a truth value. *)
Definition cell_copy_rvecs (cell : cell_type) (rvecs : list D) (full : Z)
  : cell_type * list D :=
  let n := (if (full =? 0)%Z then cell.(nvec) * 3 else 9)%Z in
  (cell, for_lt n (fun i rvecs => <[i := load_rvecs cell i]> rvecs) rvecs).

Definition cell_copy_gvecs (cell : cell_type) (gvecs : list D) (full : Z)
  : cell_type * list D :=
  let n := (if (full =? 0)%Z then cell.(nvec) * 3 else 9)%Z in
  (cell, for_lt n (fun i gvecs => <[i := load_gvecs cell i]> gvecs) gvecs).

Definition cell_copy_rspacings (cell : cell_type) (rspacings : list D)
  (full : Z) : cell_type * list D :=
  let n := (if (full =? 0)%Z then cell.(nvec) else 3)%Z in
  (cell, for_lt n (fun i rspacings => <[i := load_rspacings cell i]> rspacings)
           rspacings).

Definition cell_copy_gspacings (cell : cell_type) (gspacings : list D)
  (full : Z) : cell_type * list D :=
  let n := (if (full =? 0)%Z then cell.(nvec) else 3)%Z in
  (cell, for_lt n (fun i gspacings => <[i := load_gspacings cell i]> gspacings)
           gspacings).

(** [void cell_to_frac(cell_type* cell, double *cart, double* frac)]: the
    cell, [cart] and the new [frac]. *)
Definition cell_to_frac (cell : cell_type) (cart frac : list D)
  : cell_type * list D * list D :=
  let gvecs := cell.(gvecs) in
  let frac := <[0%nat := gvecs.[0] * cart.[0] + gvecs.[1] * cart.[1]
                         + gvecs.[2] * cart.[2]]> frac in
  let frac := <[1%nat := gvecs.[3] * cart.[0] + gvecs.[4] * cart.[1]
                         + gvecs.[5] * cart.[2]]> frac in
  let frac := <[2%nat := gvecs.[6] * cart.[0] + gvecs.[7] * cart.[1]
                         + gvecs.[8] * cart.[2]]> frac in
  (cell, cart, frac).

End Cell.

Arguments cell_type D : clear implicits.

(** ** The vocabulary of the specification *)

Section Geometry.
Context {D : Type} `{Double D}.
Local Open Scope double_scope.

(** Row [k] of a 3x3 matrix stored row-major in nine slots. *)
Definition row (m : list D) (k : nat) : list D := take 3 (drop (3 * k) m).

(** The dot product of two 3-vectors. *)
Definition dot (a b : list D) : D :=
  a.[0] * b.[0] + a.[1] * b.[1] + a.[2] * b.[2].

(** The Euclidean norm. *)
Definition norm (a : list D) : D := d_sqrt (dot a a).

Definition cross (a b : list D) : list D :=
  [ a.[1] * b.[2] - a.[2] * b.[1];
    a.[2] * b.[0] - a.[0] * b.[2];
    a.[0] * b.[1] - a.[1] * b.[0] ].

(** The scalar triple product [a . (b x c)]. *)
Definition triple (a b c : list D) : D := dot a (cross b c).

(** The translation count of a fractional projection [f]: [ceil(f - 0.5)]. *)
Definition nearest (f : D) : D := d_ceil (f - d_half).

(** [delta - t * v], element by element. *)
Definition sub_scaled (t : D) (v delta : list D) : list D :=
  zip_with (fun d r => d - t * r) delta v.

(** [delta + t * v], element by element. *)
Definition add_scaled (t : D) (v delta : list D) : list D :=
  zip_with (fun d r => d + t * r) delta v.

(** The active directions of a cell, in index order. *)
Definition active (nvec : Z) : list nat := seq 0 (Z.to_nat nvec).

(** The translation count along direction [k]: [f = gvecs[k] . delta],
    [t = ceil(f - 0.5)]. *)
Definition mic_count (cell : cell_type D) (k : nat) (delta : list D) : D :=
  nearest (dot (row (gvecs cell) k) delta).

(** The correction along direction [k]: [delta - t * rvecs[k]]. *)
Definition mic_step (cell : cell_type D) (k : nat) (delta : list D) : list D :=
  sub_scaled (mic_count cell k delta) (row (rvecs cell) k) delta.

(** The reduction as the specification words it: the directions [ks] are
    visited in order; at direction [k] the count is taken from the
    displacement as the earlier directions left it, and [t * rvecs[k]] is
    subtracted.  The result is the reduced displacement and the counts. *)
Fixpoint mic_sequential (cell : cell_type D) (ks : list nat) (delta : list D)
  : list D * list D :=
  match ks with
  | [] => (delta, [])
  | k :: ks =>
      let '(reduced, ts) := mic_sequential cell ks (mic_step cell k delta) in
      (reduced, mic_count cell k delta :: ts)
  end.

(** The translation as the specification words it: [r[k] * rvecs[k]] is
    added for each direction [k] of [ks], in order. *)
Fixpoint add_sequential (cell : cell_type D) (ks : list nat) (r : list Z)
    (delta : list D) : list D :=
  match ks with
  | [] => delta
  | k :: ks =>
      add_sequential cell ks r
        (add_scaled (d_of_long r.[k]) (row (rvecs cell) k) delta)
  end.

(** The active reciprocal rows are dual to the active direct rows:
    [gvecs[i] . rvecs[j]] is 1 for [i = j] and 0 otherwise. *)
Definition dual (cell : cell_type D) : Prop :=
  forall i j : nat,
    (Z.of_nat i < nvec cell)%Z -> (Z.of_nat j < nvec cell)%Z ->
    dot (row (gvecs cell) i) (row (rvecs cell) j)
    = if decide (i = j) then d_one else d_zero.

(** The spacing that [cell_update] derives from row [i] of a matrix. *)
Definition spacing (m : list D) (i : nat) : D := d_one / norm (row m i).

End Geometry.

(** The volume of the specification, by dimension: 0, the length of row
    0, the area spanned by rows 0 and 1 (the square root of the Gram
    determinant, clamped at 0 by [max0]), the absolute scalar triple
    product of the three rows. *)
Definition volume_by_dimension {D : Type} `{Double D} (max0 : D -> D)
    (rvecs : list D) (nvec : Z) : D :=
  let a := row rvecs 0 in
  let b := row rvecs 1 in
  let c := row rvecs 2 in
  match nvec with
  | 0%Z => d_zero
  | 1%Z => norm a
  | 2%Z =>
      d_sqrt (max0 (d_sub (d_mul (dot a a) (dot b b))
                          (d_mul (dot a b) (dot a b))))
  | 3%Z => d_fabs (triple a b c)
  | _ => d_zero
  end.

(** In exact arithmetic [max(0, x)] is [Rmax 0 x]. *)
Definition volume_spec (rvecs : list R) (nvec : Z) : R :=
  volume_by_dimension (Rmax 0) rvecs nvec.

(** In binary64 [max(0, x)] is [x] when [x > 0] and 0 otherwise (also for
    a NaN, as [fmax] has it). *)
Definition float_max0 (x : float) : float :=
  if PrimFloat.ltb 0 x then x else 0%float.

(** In exact arithmetic, [delta] is reduced along direction [k] when its
    fractional projection lies in the half-open interval (-1/2, 1/2]. *)
Definition reduced_along (cell : cell_type R) (k : nat) (delta : list R)
  : Prop :=
  (- (1 / 2) < dot (row (gvecs cell) k) delta <= 1 / 2)%R.

(** A binary64 zero of either sign. *)
Definition float_zero (x : float) : Prop := x = 0%float \/ x = (-0)%float.

(** Row [i] of a binary64 matrix holds only zeros. *)
Definition zero_row (m : list float) (i : nat) : Prop :=
  float_zero m.[3*i] /\ float_zero m.[3*i+1] /\ float_zero m.[3*i+2].

(** The first [n] elements of [out] overwritten by those of [src]. *)
Definition overwritten {A : Type} (n : nat) (src out : list A) : list A :=
  take n src ++ drop n out.

(** What the specification says of a copy function [copy] for the field
    [field] whose rows are [width] wide.  With [full] set it writes all
    [3 * width] elements, whatever [nvec] is, and returns the cell as it
    was.  Without [full], on a cell with [nvec] in 0..3, it writes the
    first [nvec * width] elements and no other, and returns the cell as
    it was; and those elements are the prefix of what [full] yields. *)
Definition copy_modes {D : Type}
    (copy : cell_type D -> list D -> Z -> cell_type D * list D)
    (field : cell_type D -> list D) (width : nat) (cell : cell_type D)
  : Prop :=
  let part := (Z.to_nat (nvec cell) * width)%nat in
  (forall (out : list D) (full : Z),
     full <> 0%Z -> (3 * width <= length out)%nat ->
     copy cell out full = (cell, overwritten (3 * width) (field cell) out) /\
     take (3 * width) (copy cell out full).2 = field cell) /\
  ((0 <= nvec cell <= 3)%Z ->
   (forall out : list D,
      (part <= length out)%nat ->
      copy cell out 0%Z = (cell, overwritten part (field cell) out)) /\
   (forall (out out' : list D) (full : Z),
      full <> 0%Z -> (part <= length out)%nat ->
      (3 * width <= length out')%nat ->
      take part (copy cell out 0%Z).2 = take part (copy cell out' full).2)).

(** ** Concrete cells *)

(** A binary64 cell before its first update. *)
Definition blank : cell_type float :=
  {| rvecs := replicate 9 0%float; gvecs := replicate 9 0%float;
     rspacings := replicate 3 0%float; gspacings := replicate 3 0%float;
     volume := 0%float; nvec := 0 |}.

(** The cubic cell of side 8 (its reciprocal rows have the binary64 entry
    0.125). *)
Definition cubic_rvecs : list float := [8; 0; 0; 0; 8; 0; 0; 0; 8]%float.
Definition cubic_gvecs : list float :=
  [0.125; 0; 0; 0; 0.125; 0; 0; 0; 0.125]%float.

(** That cell after its update, with [n] periodic directions. *)
Definition cubic (n : Z) : cell_type float :=
  {| rvecs := cubic_rvecs; gvecs := cubic_gvecs;
     rspacings := [8; 8; 8]%float;
     gspacings := [0.125; 0.125; 0.125]%float;
     volume := 512%float; nvec := n |}.

(** The unit cube in exact arithmetic, with [n] periodic directions. *)
Definition unit_cell (n : Z) : cell_type R :=
  {| rvecs := [1; 0; 0; 0; 1; 0; 0; 0; 1]%R;
     gvecs := [1; 0; 0; 0; 1; 0; 0; 0; 1]%R;
     rspacings := [1; 1; 1]%R; gspacings := [1; 1; 1]%R;
     volume := 1%R; nvec := n |}.

(** Splits a list into its elements, given its length [H]. *)
Ltac explode l H :=
  repeat (destruct l as [|? l]; simpl in H; try discriminate H);
  clear H.

(** Equality of two vectors of three reals, by [tac] on each entry. *)
Ltac vec3_by tac :=
  simpl; f_equal; [ tac | f_equal; [ tac | f_equal; tac ] ].

Ltac vec3 := vec3_by ltac:(ring).

(** A binary64 value that is a NaN or not below zero. *)
Definition float_nan_or_nonneg (v : float) : Prop :=
  PrimFloat.is_nan v = true \/ PrimFloat.leb 0 v = true.

(** The same of the specification of a binary64 value. *)
Definition sf_nan_or_nonneg (y : spec_float) : Prop :=
  y = S754_nan \/ SFleb (S754_zero false) y = true.

(** Finite binary64 rows whose products overflow: rows 1 and 2 are
    (0, 2^600, 2^600). *)
Definition overflow_rvecs : list float :=
  [1; 0; 0; 0; 0x1p+600; 0x1p+600; 0; 0x1p+600; 0x1p+600]%float.

(** Binary64 rows whose Gram determinant rounds below zero: row 0 is
    (0.1, 0, 0.5) and row 1 is three times row 0, both as binary64 has
    them. *)
Definition roundoff_rvecs : list float :=
  [0x1.999999999999ap-4; 0; 0.5; 0x1.3333333333334p-2; 0; 1.5; 0; 0; 1]%float.

(** A skewed binary64 cell with [n] periodic directions: the direct rows
    (1,0,0), (2^60,1,0), (0,0,1) and their dual rows, every entry and
    every dot product of a reciprocal with a direct row exact. *)
Definition skew60_rvecs : list float :=
  [1; 0; 0; 0x1p+60; 1; 0; 0; 0; 1]%float.
Definition skew60_gvecs : list float :=
  [1; -0x1p+60; 0; 0; 1; 0; 0; 0; 1]%float.

Definition skew60 (n : Z) : cell_type float :=
  {| rvecs := skew60_rvecs; gvecs := skew60_gvecs;
     rspacings := [1; 1; 1]%float; gspacings := [1; 1; 1]%float;
     volume := 1%float; nvec := n |}.

(** A skewed cell in exact arithmetic, with [n] periodic directions: the
    direct rows (1,0,0), (1,1,0), (0,0,1) and their dual rows. *)
Definition skew_rvecs : list R := [1; 0; 0; 1; 1; 0; 0; 0; 1]%R.
Definition skew_gvecs : list R := [1; -1; 0; 0; 1; 0; 0; 0; 1]%R.

Definition skew_cell (n : Z) : cell_type R :=
  {| rvecs := skew_rvecs; gvecs := skew_gvecs;
     rspacings := [1; 1; 1]%R; gspacings := [1; 1; 1]%R;
     volume := 1%R; nvec := n |}.

(** Case analysis on a count that is not 0, 1 or 2: in each case left,
    the three tests of the count compute to [false]. *)
Ltac other_count n :=
  destruct n as [|[[?|?|]|[?|?|]|]|?]; try done.

(** ** The structure of the code, in any arithmetic *)

Section Structure.
Context {D : Type} `{Double D}.
Local Open Scope double_scope.

(** The record of [x] changes nothing: [cell_mic] is [cell_mic_trace]
    without its third component. *)
Lemma cell_mic_of_trace (delta : list D) (cell : cell_type D) :
  cell_mic delta cell = (cell_mic_trace delta cell).1.
Proof.
  unfold cell_mic, cell_mic_trace.
  generalize (nvec cell =? 0)%Z (nvec cell =? 1)%Z (nvec cell =? 2)%Z.
  intros [] b c; [ reflexivity | ].
  destruct b; [ reflexivity | ].
  destruct c; reflexivity.
Qed.

Lemma mic_sequential_cons_1 (cell : cell_type D) k ks d :
  (mic_sequential cell (k :: ks) d).1
  = (mic_sequential cell ks (mic_step cell k d)).1.
Proof. cbn [mic_sequential]. by destruct (mic_sequential cell ks _). Qed.

Lemma mic_sequential_cons_2 (cell : cell_type D) k ks d :
  (mic_sequential cell (k :: ks) d).2
  = mic_count cell k d :: (mic_sequential cell ks (mic_step cell k d)).2.
Proof. cbn [mic_sequential]. by destruct (mic_sequential cell ks _). Qed.

(** The reduced displacement of [mic_sequential] is the fold of the
    corrections over the directions. *)
Lemma mic_sequential_foldl (cell : cell_type D) (ks : list nat) :
  forall d : list D,
    (mic_sequential cell ks d).1 = foldl (fun d k => mic_step cell k d) d ks.
Proof.
  induction ks as [|k ks IH]; intros d; [ reflexivity | ].
  rewrite mic_sequential_cons_1. apply IH.
Qed.

(** The unrolled code of [cell_mic] is the sequential reduction over the
    active directions. *)
Lemma cell_mic_trace_sequential (delta : list D) (cell : cell_type D) :
  cell_sized cell -> length delta = 3%nat -> (0 <= nvec cell <= 3)%Z ->
  cell_mic_trace delta cell
  = ((mic_sequential cell (active (nvec cell)) delta).1, cell,
     (mic_sequential cell (active (nvec cell)) delta).2).
Proof.
  intros (Hr & Hg & _ & _) Hd Hn.
  destruct cell as [rv gv rs gs vol n]. cbn [rvecs gvecs nvec] in Hr, Hg, Hn.
  explode delta Hd. explode rv Hr. explode gv Hg.
  assert (n = 0 \/ n = 1 \/ n = 2 \/ n = 3)%Z as [-> | [-> | [-> | ->]]] by lia;
    reflexivity.
Qed.

Lemma cell_mic_sized_sequential (delta : list D) (cell : cell_type D) :
  cell_sized cell -> length delta = 3%nat -> (0 <= nvec cell <= 3)%Z ->
  cell_mic delta cell
  = ((mic_sequential cell (active (nvec cell)) delta).1, cell).
Proof.
  intros Hs Hd Hn.
  rewrite cell_mic_of_trace, cell_mic_trace_sequential by done. reflexivity.
Qed.

(** The unrolled code of [cell_add_vec] is the sequential translation
    over the active directions. *)
Lemma cell_add_vec_sequential (delta : list D) (cell : cell_type D)
    (r : list Z) :
  cell_sized cell -> length delta = 3%nat -> (0 <= nvec cell <= 3)%Z ->
  cell_add_vec delta cell r
  = (add_sequential cell (active (nvec cell)) r delta, cell, r).
Proof.
  intros (Hr & _ & _ & _) Hd Hn.
  destruct cell as [rv gv rs gs vol n]. cbn [rvecs nvec] in Hr, Hn.
  explode delta Hd. explode rv Hr.
  assert (n = 0 \/ n = 1 \/ n = 2 \/ n = 3)%Z as [-> | [-> | [-> | ->]]] by lia;
    reflexivity.
Qed.

(** [cell_mic] visits the active directions in index order and applies
    [mic_step] at each; the directions [k >= nvec] are not visited.  The
    cell is returned as it was. *)
Lemma cell_mic_fold_steps (delta : list D) (cell : cell_type D) :
  cell_sized cell -> length delta = 3%nat -> (1 <= nvec cell <= 3)%Z ->
  cell_mic delta cell
  = (foldl (fun d k => mic_step cell k d) delta
       (seq 0 (Z.to_nat (nvec cell))), cell).
Proof.
  intros Hs Hd Hn.
  rewrite cell_mic_sized_sequential by (done || lia).
  by rewrite mic_sequential_foldl.
Qed.

(** C6: in a cell with [nvec = 0], [cell_mic], [cell_to_center] and
    [cell_add_vec] return at their first test: the displacement, the
    cartesian vector, the centre, the translation counts and the cell come
    back as they were given, whatever they are. *)
Theorem nvec0_no_ops (cell : cell_type D) (delta cart : list D)
    (center r : list Z) :
  nvec cell = 0%Z ->
  cell_mic delta cell = (delta, cell) /\
  cell_to_center cart cell center = (cart, cell, center) /\
  cell_add_vec delta cell r = (delta, cell, r).
Proof.
  intros Hn.
  unfold cell_mic, cell_to_center, cell_add_vec.
  rewrite Hn. simpl. auto.
Qed.

(** The store of [cell_to_center] at an active direction. *)
Lemma cell_to_center_lookup (cart : list D) (cell : cell_type D)
    (center : list Z) (k : nat) :
  cell_sized cell -> (1 <= nvec cell <= 3)%Z ->
  (Z.to_nat (nvec cell) <= length center)%nat ->
  (Z.of_nat k < nvec cell)%Z ->
  (cell_to_center cart cell center).2 !! k
  = Some (d_to_long (- nearest (dot (row (gvecs cell) k) cart))).
Proof.
  intros (_ & Hg & _ & _) Hn Hc Hk.
  destruct cell as [rv gv rs gs vol n]. cbn [gvecs nvec] in Hg, Hn, Hc, Hk |- *.
  explode gv Hg.
  unfold cell_to_center; cbn [gvecs nvec].
  assert (n = 1 \/ n = 2 \/ n = 3)%Z as [-> | [-> | ->]] by lia; simpl;
    destruct k as [|[|[|k]]]; try lia; simpl in Hc;
    rewrite ?list_lookup_insert_ne by lia;
    rewrite list_lookup_insert_eq by (rewrite ?length_insert; lia);
    reflexivity.
Qed.

(** [cell_to_center] has no assignment to [cart] or to the cell. *)
Lemma cell_to_center_reads (cart : list D) (cell : cell_type D)
    (center : list Z) :
  (cell_to_center cart cell center).1 = (cart, cell).
Proof.
  unfold cell_to_center.
  destruct (nvec cell =? 0)%Z; [ reflexivity | ].
  destruct (nvec cell =? 1)%Z; [ reflexivity | ].
  destruct (nvec cell =? 2)%Z; reflexivity.
Qed.

(** C9: for [nvec] in 1..3, [cell_to_center] stores at each active
    direction [k] the value of [-ceil(gvecs[k] . cart - 0.5)] converted to
    [long], every one computed on the [cart] it was given; [cart] and the
    cell are returned as they were. *)
Theorem cell_to_center_counts (cart : list D) (cell : cell_type D)
    (center : list Z) :
  cell_sized cell -> (1 <= nvec cell <= 3)%Z ->
  (Z.to_nat (nvec cell) <= length center)%nat ->
  (cell_to_center cart cell center).1 = (cart, cell) /\
  forall k : nat, (Z.of_nat k < nvec cell)%Z ->
    (cell_to_center cart cell center).2 !! k
    = Some (d_to_long (- nearest (dot (row (gvecs cell) k) cart))).
Proof.
  intros Hs Hn Hc. split.
  - apply cell_to_center_reads.
  - intros k Hk. by apply cell_to_center_lookup.
Qed.

(** C10: for [nvec] in 0..2, [cell_to_center] stores nothing at the
    entries [k >= nvec] of [center]: they keep the values the caller
    supplied, the array keeps its length, and for [nvec = 0] the whole
    array is returned as it was. *)
Theorem cell_to_center_frame (cart : list D) (cell : cell_type D)
    (center : list Z) :
  (0 <= nvec cell < 3)%Z ->
  length (cell_to_center cart cell center).2 = length center /\
  (forall k : nat, (nvec cell <= Z.of_nat k)%Z ->
     (cell_to_center cart cell center).2 !! k = center !! k) /\
  (nvec cell = 0%Z -> (cell_to_center cart cell center).2 = center).
Proof.
  intros Hn. unfold cell_to_center.
  assert (nvec cell = 0 \/ nvec cell = 1 \/ nvec cell = 2)%Z
    as [-> | [-> | ->]] by lia; simpl;
    (split; [ by rewrite ?length_insert | split; [ | done ] ]);
    intros k Hk; rewrite ?list_lookup_insert_ne by lia; reflexivity.
Qed.

End Structure.

(** ** The copy functions *)

Section Accessors.
Context {D : Type} `{Double D}.

(** The copy loop: [for (i = 0; i < n; i++) out[i] = src[i]]. *)
Lemma copy_loop (src out : list D) (n : nat) :
  (n <= length src)%nat -> (n <= length out)%nat ->
  foldl (fun o i => <[i := src.[i]]> o) out (seq 0 n) = overwritten n src out.
Proof.
  unfold overwritten. intros Hs Ho. induction n as [|n IH].
  - simpl. by rewrite drop_0.
  - rewrite seq_S, foldl_app. simpl. rewrite IH by lia.
    destruct (lookup_lt_is_Some_2 src n) as [x Hx]; [ lia | ].
    rewrite (list_lookup_total_correct _ _ _ Hx).
    rewrite (take_S_r _ _ _ Hx).
    rewrite insert_app_r_alt by (rewrite length_take; lia).
    rewrite length_take, Nat.min_l, Nat.sub_diag by lia.
    destruct (lookup_lt_is_Some_2 out n) as [y Hy]; [ lia | ].
    rewrite (drop_S _ _ _ Hy). simpl. by rewrite <- app_assoc.
Qed.

Lemma for_lt_copy (src out : list D) (n : Z) :
  (Z.to_nat n <= length src)%nat -> (Z.to_nat n <= length out)%nat ->
  for_lt n (fun i o => <[i := src.[i]]> o) out
  = overwritten (Z.to_nat n) src out.
Proof. intros Hs Ho. unfold for_lt. by apply copy_loop. Qed.

Lemma overwritten_take {A : Type} (n : nat) (src out : list A) :
  (n <= length src)%nat -> take n (overwritten n src out) = take n src.
Proof.
  intros Hs. unfold overwritten.
  rewrite take_app_le by (rewrite length_take; lia).
  rewrite take_take. f_equal. lia.
Qed.

(** A copy function written as the four of [cell.c] are has the two modes
    of the specification. *)
Lemma copy_modes_of_loop
    (copy : cell_type D -> list D -> Z -> cell_type D * list D)
    (field : cell_type D -> list D) (width : nat) (cell : cell_type D) :
  (forall out full,
     copy cell out full
     = (cell, for_lt (if (full =? 0)%Z then nvec cell * Z.of_nat width
                      else 3 * Z.of_nat width)%Z
                (fun i o => <[i := (field cell).[i]]> o) out)) ->
  length (field cell) = (3 * width)%nat ->
  copy_modes copy field width cell.
Proof.
  intros Hcopy Hlen.
  assert (forall out full, full <> 0%Z -> (3 * width <= length out)%nat ->
            copy cell out full
            = (cell, overwritten (3 * width) (field cell) out)) as Hfull.
  { intros out full Hf Ho. rewrite Hcopy.
    destruct (Z.eqb_spec full 0); [ done | ].
    rewrite for_lt_copy by lia. do 2 f_equal. lia. }
  split.
  - intros out full Hf Ho. rewrite Hfull by done. split; [ done | ].
    cbn [snd]. rewrite overwritten_take by lia.
    apply take_ge. lia.
  - intros Hn.
    assert (forall out,
              (Z.to_nat (nvec cell) * width <= length out)%nat ->
              copy cell out 0%Z
              = (cell, overwritten (Z.to_nat (nvec cell) * width)
                         (field cell) out)) as Hpart.
    { intros out Ho. rewrite Hcopy. simpl.
      rewrite for_lt_copy by nia. do 2 f_equal. nia. }
    split; [ exact Hpart | ].
    intros out out' full Hf Ho Ho'.
    rewrite (Hfull out' full), (Hpart out) by done. cbn [snd].
    rewrite overwritten_take by nia.
    unfold overwritten. rewrite take_app_le by (rewrite length_take; nia).
    rewrite take_take. f_equal. nia.
Qed.

(** C7: each of the four copy functions, on any cell: with [full] set it
    writes all 9 (vectors) or 3 (spacings) elements, whatever [nvec] is;
    without it, for [nvec] in 0..3, exactly the first [nvec * 3] or [nvec]
    elements, the rest of the buffer being left as it was; those elements
    are the prefix of what [full] yields; and the cell is returned
    unchanged. *)
Theorem copy_accessor_modes (cell : cell_type D) :
  cell_sized cell ->
  copy_modes cell_copy_rvecs rvecs 3 cell /\
  copy_modes cell_copy_gvecs gvecs 3 cell /\
  copy_modes cell_copy_rspacings rspacings 1 cell /\
  copy_modes cell_copy_gspacings gspacings 1 cell.
Proof.
  intros (Hr & Hg & Hrs & Hgs).
  split; [ | split; [ | split ] ]; apply copy_modes_of_loop; try done;
    intros out full;
    unfold cell_copy_rvecs, cell_copy_gvecs, cell_copy_rspacings,
      cell_copy_gspacings;
    destruct (full =? 0)%Z; do 2 f_equal; lia.
Qed.

End Accessors.

(** ** The update *)

Section Update.
Context {D : Type} `{Double D}.
Local Open Scope double_scope.

(** What [cell_update] stores whatever the count [n] is: the count, both
    matrices, and the six spacings. *)
Lemma cell_update_stores (cell : cell_type D) (rv gv : list D) (n : Z) :
  cell_sized cell -> length rv = 9%nat -> length gv = 9%nat ->
  let cell' := cell_update cell rv gv n in
  nvec cell' = n /\ rvecs cell' = rv /\ gvecs cell' = gv /\
  rspacings cell' = [spacing gv 0; spacing gv 1; spacing gv 2] /\
  gspacings cell' = [spacing rv 0; spacing rv 1; spacing rv 2].
Proof.
  intros (Hr & Hg & Hrs & Hgs) Hrv Hgv.
  destruct cell as [r g rs gs vol n0].
  cbn [rvecs gvecs rspacings gspacings] in Hr, Hg, Hrs, Hgs.
  explode r Hr. explode g Hg. explode rs Hrs. explode gs Hgs.
  explode rv Hrv. explode gv Hgv.
  unfold cell_update.
  destruct (n =? 0)%Z; [ by repeat split | ].
  destruct (n =? 1)%Z; [ by repeat split | ].
  destruct (n =? 2)%Z; [ | destruct (n =? 3)%Z; by repeat split ].
  match goal with |- context [if ?b then _ else _] => destruct b end;
    by repeat split.
Qed.

(** The [switch] on [nvec] has no [default]: outside 0..3 no case is
    taken and [volume] keeps the value it had. *)
Lemma cell_update_no_default (cell : cell_type D) (rv gv : list D) (n : Z) :
  ~ (0 <= n <= 3)%Z ->
  volume (cell_update cell rv gv n) = volume cell.
Proof.
  intros Hn. unfold cell_update.
  destruct (Z.eqb_spec n 0); [ lia | ].
  destruct (Z.eqb_spec n 1); [ lia | ].
  destruct (Z.eqb_spec n 2); [ lia | ].
  destruct (Z.eqb_spec n 3); [ lia | ].
  reflexivity.
Qed.

(** C3, as the code has it: [cell_update] has no failure path.  With a
    count [n] outside 0..3 it stores [n], copies both matrices, recomputes
    the six spacings, and leaves [volume] as it was. *)
Theorem cell_update_outside_range (cell : cell_type D) (rv gv : list D)
    (n : Z) :
  cell_sized cell -> length rv = 9%nat -> length gv = 9%nat ->
  ~ (0 <= n <= 3)%Z ->
  cell_update cell rv gv n
  = {| rvecs := rv; gvecs := gv;
       rspacings := [spacing gv 0; spacing gv 1; spacing gv 2];
       gspacings := [spacing rv 0; spacing rv 1; spacing rv 2];
       volume := volume cell; nvec := n |}.
Proof.
  intros Hs Hrv Hgv Hn.
  destruct (cell_update_stores cell rv gv n Hs Hrv Hgv)
    as (E1 & E2 & E3 & E4 & E5).
  pose proof (cell_update_no_default cell rv gv n Hn) as E6.
  destruct (cell_update cell rv gv n); simpl in *. by subst.
Qed.

End Update.

(** C3, as the claim has it, fails: the call with [nvec = 4] does not leave
    the cell as it was.  The count and both matrices are overwritten, the
    spacings are recomputed, and only [volume] keeps its old value. *)
Lemma cell_update_nvec4_overwrites :
  cell_update blank cubic_rvecs cubic_gvecs 4
  = {| rvecs := cubic_rvecs; gvecs := cubic_gvecs;
       rspacings := [8; 8; 8]%float;
       gspacings := [0.125; 0.125; 0.125]%float;
       volume := 0%float; nvec := 4 |}
  /\ cell_update blank cubic_rvecs cubic_gvecs 4 <> blank.
Proof.
  assert (cell_update blank cubic_rvecs cubic_gvecs 4
          = {| rvecs := cubic_rvecs; gvecs := cubic_gvecs;
               rspacings := [8; 8; 8]%float;
               gspacings := [0.125; 0.125; 0.125]%float;
               volume := 0%float; nvec := 4 |}) as E
    by (vm_compute; reflexivity).
  split; [ exact E | ].
  rewrite E. intros Heq. apply (f_equal nvec) in Heq. discriminate Heq.
Qed.

(** The amended C3 at the same call. *)
Lemma cell_update_outside_range_witness :
  cell_update blank cubic_rvecs cubic_gvecs 4
  = {| rvecs := cubic_rvecs; gvecs := cubic_gvecs;
       rspacings := [spacing cubic_gvecs 0; spacing cubic_gvecs 1;
                     spacing cubic_gvecs 2];
       gspacings := [spacing cubic_rvecs 0; spacing cubic_rvecs 1;
                     spacing cubic_rvecs 2];
       volume := volume blank; nvec := 4 |}.
Proof.
  apply (cell_update_outside_range blank cubic_rvecs cubic_gvecs 4).
  - repeat split.
  - reflexivity.
  - reflexivity.
  - lia.
Defined.

(** ** Spacings in binary64 *)

Lemma row_lookup {D : Type} `{Double D} (m : list D) (k j : nat) :
  (j < 3)%nat -> (row m k).[j] = m.[3 * k + j].
Proof.
  intros Hj. unfold row.
  rewrite lookup_total_take_lt by done. apply lookup_total_drop.
Qed.

Lemma float_zero_square (x : float) :
  float_zero x -> PrimFloat.mul x x = 0%float.
Proof. by intros [-> | ->]. Qed.

(** The spacing of an all-zero row is [1 / sqrt(0)], which is [+infinity]. *)
Lemma spacing_zero_row (m : list float) (i : nat) :
  zero_row m i -> spacing m i = infinity.
Proof.
  intros (H0 & H1 & H2).
  apply float_zero_square in H0, H1, H2.
  unfold spacing, norm, dot. rewrite !row_lookup by lia.
  rewrite Nat.add_0_r. cbn [d_mul d_add d_div d_sqrt d_one binary64_double].
  by rewrite H0, H1, H2.
Qed.

Lemma spacing_lookup {D : Type} `{Double D} (m : list D) (i : nat) :
  (i < 3)%nat ->
  [spacing m 0; spacing m 1; spacing m 2] !! i = Some (spacing m i).
Proof. intros Hi. by destruct i as [|[|[|i]]]; [ | | | lia ]. Qed.

(** C8: whatever [nvec] is, [cell_update] recomputes the three slots of
    both spacings, [rspacings[i] = 1 / |gvecs row i|] and
    [gspacings[i] = 1 / |rvecs row i|], in any arithmetic; and in binary64
    the spacing of a row that holds only zeros is [+infinity]: the
    division by zero yields a value. *)
Theorem cell_update_spacings :
  (forall (D : Type) (H : Double D) (cell : cell_type D) (rv gv : list D)
          (n : Z) (i : nat),
     cell_sized cell -> length rv = 9%nat -> length gv = 9%nat ->
     (i < 3)%nat ->
     rspacings (cell_update cell rv gv n) !! i
     = Some (d_div d_one (norm (row gv i))) /\
     gspacings (cell_update cell rv gv n) !! i
     = Some (d_div d_one (norm (row rv i)))) /\
  (forall (cell : cell_type float) (rv gv : list float) (n : Z) (i : nat),
     cell_sized cell -> length rv = 9%nat -> length gv = 9%nat ->
     (i < 3)%nat ->
     (zero_row gv i ->
      rspacings (cell_update cell rv gv n) !! i = Some infinity) /\
     (zero_row rv i ->
      gspacings (cell_update cell rv gv n) !! i = Some infinity)).
Proof.
  split.
  - intros D H cell rv gv n i Hs Hrv Hgv Hi.
    destruct (cell_update_stores cell rv gv n Hs Hrv Hgv)
      as (_ & _ & _ & -> & ->).
    by rewrite !spacing_lookup.
  - intros cell rv gv n i Hs Hrv Hgv Hi.
    destruct (cell_update_stores cell rv gv n Hs Hrv Hgv)
      as (_ & _ & _ & -> & ->).
    rewrite !spacing_lookup by done.
    split; intros Hz; by rewrite spacing_zero_row.
Qed.

(** A cell whose second direct row is zero: its reciprocal-space spacing
    along that row is [+infinity], and the real-space spacing of the row
    [0.125 0 0] is 8. *)
Lemma cell_update_spacings_witness :
  let rv := [8; 0; 0; 0; 0; 0; 0; 0; 8]%float in
  (rspacings (cell_update blank rv cubic_gvecs 2) !! 0%nat
   = Some (d_div d_one (norm (row cubic_gvecs 0))) /\
   gspacings (cell_update blank rv cubic_gvecs 2) !! 0%nat
   = Some (d_div d_one (norm (row rv 0)))) /\
  gspacings (cell_update blank rv cubic_gvecs 2) !! 1%nat = Some infinity.
Proof.
  intros rv. split.
  - apply (proj1 cell_update_spacings float _ blank rv cubic_gvecs 2%Z 0%nat);
      try reflexivity; [ repeat split | lia ].
  - apply (proj2 cell_update_spacings blank rv cubic_gvecs 2%Z 1%nat);
      try reflexivity; [ repeat split | lia | ].
    repeat split; by left.
Defined.

(** ** The volume in binary64 *)

(** In binary64, for every input (finite or not), [cell_update] with
    [nvec] in 0..3 stores the volume of the specification evaluated in
    binary64, with the operations associated as in the C text. *)
Lemma cell_update_volume_binary64 (cell : cell_type float)
    (rv gv : list float) (n : Z) :
  length rv = 9%nat -> (0 <= n <= 3)%Z ->
  volume (cell_update cell rv gv n) = volume_by_dimension float_max0 rv n.
Proof.
  intros Hr Hn. explode rv Hr.
  assert (n = 0 \/ n = 1 \/ n = 2 \/ n = 3)%Z
    as [-> | [-> | [-> | ->]]] by lia; try reflexivity.
  unfold cell_update, volume_by_dimension, float_max0. simpl.
  match goal with |- context [PrimFloat.ltb 0 ?t] =>
    destruct (PrimFloat.ltb 0 t) end; reflexivity.
Qed.

(** ** Exact arithmetic *)

Section Exact.
Local Open Scope R_scope.

Lemma Zfloor_spec (x : R) : IZR (Zfloor x) <= x < IZR (Zfloor x) + 1.
Proof. unfold Zfloor. rewrite minus_IZR. destruct (archimed x). lra. Qed.

Lemma Zceil_spec (x : R) : IZR (Zceil x) - 1 < x <= IZR (Zceil x).
Proof.
  unfold Zceil. rewrite opp_IZR. destruct (Zfloor_spec (- x)). lra.
Qed.

Lemma Zceil_unique (x : R) (n : Z) : IZR n - 1 < x <= IZR n -> Zceil x = n.
Proof.
  intros [Hl Hu]. destruct (Zceil_spec x) as [Hl' Hu'].
  assert (IZR (Zceil x) < IZR (n + 1)) as H1 by (rewrite plus_IZR; lra).
  assert (IZR n < IZR (Zceil x + 1)) as H2 by (rewrite plus_IZR; lra).
  apply lt_IZR in H1, H2. lia.
Qed.

Lemma Zceil_IZR (n : Z) : Zceil (IZR n) = n.
Proof. apply Zceil_unique. lra. Qed.

Lemma Zfloor_IZR (n : Z) : Zfloor (IZR n) = n.
Proof.
  pose proof (Zceil_IZR (- n)) as Hc. unfold Zceil in Hc.
  rewrite opp_IZR, Ropp_involutive in Hc. lia.
Qed.

(** An integral real converts to the integer it is. *)
Lemma Ztrunc_IZR (n : Z) : Ztrunc (IZR n) = n.
Proof.
  unfold Ztrunc.
  destruct (Rle_dec 0 (IZR n)); [ apply Zfloor_IZR | apply Zceil_IZR ].
Qed.

(** [ceil(f - 1/2)] is within a half of [f], the upper end included. *)
Lemma nearest_range (f : R) : - (1 / 2) < f - nearest f <= 1 / 2.
Proof.
  unfold nearest. simpl. destruct (Zceil_spec (f - 1 / 2)). lra.
Qed.

Lemma nearest_zero (f : R) : - (1 / 2) < f <= 1 / 2 -> nearest f = 0.
Proof.
  intros Hf. unfold nearest. simpl.
  rewrite (Zceil_unique _ 0); [ reflexivity | lra ].
Qed.

(** A count survives the conversion to [long] and back. *)
Lemma long_of_count (f : R) : IZR (Ztrunc (nearest f)) = nearest f.
Proof. unfold nearest. simpl. by rewrite Ztrunc_IZR. Qed.

(** In exact arithmetic, [cell_update] with [nvec] in 0..3 stores the
    volume of the specification: 0; the norm of row 0; the square root of
    [max(0, |a|^2 |b|^2 - (a.b)^2)] for the rows [a], [b]; the absolute
    value of the scalar triple product of the three rows.  It is never
    negative. *)
Lemma cell_update_volume_exact (cell : cell_type R) (rv gv : list R)
    (n : Z) :
  length rv = 9%nat -> (0 <= n <= 3)%Z ->
  volume (cell_update cell rv gv n) = volume_spec rv n /\
  0 <= volume (cell_update cell rv gv n).
Proof.
  intros Hr Hn. explode rv Hr.
  assert (n = 0 \/ n = 1 \/ n = 2 \/ n = 3)%Z
    as [-> | [-> | [-> | ->]]] by lia.
  - simpl. split; [ reflexivity | lra ].
  - simpl. split; [ reflexivity | apply sqrt_pos ].
  - unfold cell_update, volume_spec. simpl. unfold Rgtb.
    match goal with
    | |- context [Rgt_dec ?t 0] =>
        set (tmp := t); destruct (Rgt_dec tmp 0) as [Hp | Hp]
    end; simpl.
    + rewrite Rmax_right by (fold tmp; lra).
      split; [ reflexivity | apply sqrt_pos ].
    + rewrite Rmax_left by (fold tmp; lra). rewrite sqrt_0.
      split; [ reflexivity | lra ].
  - simpl. split; [ reflexivity | apply Rabs_pos ].
Qed.

(** *** Vectors of three reals *)



Lemma row_length (m : list R) (k : nat) :
  length m = 9%nat -> (k < 3)%nat -> length (row m k) = 3%nat.
Proof. intros Hm Hk. unfold row. rewrite length_take, length_drop. lia. Qed.

Lemma sub_scaled_length (t : R) (v d : list R) :
  length v = 3%nat -> length d = 3%nat -> length (sub_scaled t v d) = 3%nat.
Proof. intros Hv Hd. unfold sub_scaled. rewrite length_zip_with. lia. Qed.

Lemma add_scaled_length (t : R) (v d : list R) :
  length v = 3%nat -> length d = 3%nat -> length (add_scaled t v d) = 3%nat.
Proof. intros Hv Hd. unfold add_scaled. rewrite length_zip_with. lia. Qed.

Lemma dot_sub_scaled (g v d : list R) (t : R) :
  length v = 3%nat -> length d = 3%nat ->
  dot g (sub_scaled t v d) = dot g d - t * dot g v.
Proof.
  intros Hv Hd. explode v Hv. explode d Hd. unfold dot. simpl. ring.
Qed.

Lemma sub_scaled_zero (v d : list R) :
  length v = 3%nat -> length d = 3%nat -> sub_scaled 0 v d = d.
Proof.
  intros Hv Hd. explode v Hv. explode d Hd. unfold sub_scaled. vec3.
Qed.

Lemma add_sub_scaled (t : R) (v d : list R) :
  length v = 3%nat -> length d = 3%nat ->
  add_scaled t v (sub_scaled t v d) = d.
Proof.
  intros Hv Hd. explode v Hv. explode d Hd.
  unfold add_scaled, sub_scaled. vec3.
Qed.

Lemma add_scaled_comm (s t : R) (v w d : list R) :
  length v = 3%nat -> length w = 3%nat -> length d = 3%nat ->
  add_scaled s v (add_scaled t w d) = add_scaled t w (add_scaled s v d).
Proof.
  intros Hv Hw Hd. explode v Hv. explode w Hw. explode d Hd.
  unfold add_scaled. vec3.
Qed.

(** *** The steps of the reduction *)

Section Steps.
Context (cell : cell_type R) (Hsized : cell_sized cell).

Lemma rvecs_row_length (k : nat) :
  (k < 3)%nat -> length (row (rvecs cell) k) = 3%nat.
Proof. intros Hk. destruct Hsized as (Hr & _). by apply row_length. Qed.

Lemma mic_step_length (k : nat) (d : list R) :
  (k < 3)%nat -> length d = 3%nat -> length (mic_step cell k d) = 3%nat.
Proof.
  intros Hk Hd. apply sub_scaled_length; [ by apply rvecs_row_length | done ].
Qed.

Lemma mic_sequential_length (ks : list nat) : forall d : list R,
  Forall (fun k => (k < 3)%nat) ks -> length d = 3%nat ->
  length (mic_sequential cell ks d).1 = 3%nat.
Proof.
  induction ks as [|k ks IH]; intros d Hks Hd; [ done | ].
  apply Forall_cons in Hks as [Hk Hks].
  rewrite mic_sequential_cons_1. apply IH; [ done | ].
  by apply mic_step_length.
Qed.

(** The step along [k] leaves the displacement reduced along [k]. *)
Lemma mic_step_reduces (k : nat) (d : list R) :
  (k < 3)%nat -> length d = 3%nat ->
  dot (row (gvecs cell) k) (row (rvecs cell) k) = 1 ->
  reduced_along cell k (mic_step cell k d).
Proof.
  intros Hk Hd Hdual. unfold reduced_along, mic_step, mic_count.
  rewrite dot_sub_scaled, Hdual by (by try apply rvecs_row_length).
  pose proof (nearest_range (dot (row (gvecs cell) k) d)). lra.
Qed.

(** The step along [k] does not change the projection on a reciprocal
    row orthogonal to [rvecs[k]]. *)
Lemma mic_step_keeps (j k : nat) (d : list R) :
  (k < 3)%nat -> length d = 3%nat ->
  dot (row (gvecs cell) j) (row (rvecs cell) k) = 0 ->
  reduced_along cell j d -> reduced_along cell j (mic_step cell k d).
Proof.
  intros Hk Hd Hdual Hj. unfold reduced_along, mic_step in *.
  rewrite dot_sub_scaled, Hdual by (by try apply rvecs_row_length). lra.
Qed.

(** Along a direction where the displacement is reduced, the count is 0
    and the step changes nothing. *)
Lemma mic_step_fixed (k : nat) (d : list R) :
  (k < 3)%nat -> length d = 3%nat -> reduced_along cell k d ->
  mic_count cell k d = 0 /\ mic_step cell k d = d.
Proof.
  intros Hk Hd Hred.
  assert (mic_count cell k d = 0) as H0 by (by apply nearest_zero).
  split; [ done | ].
  unfold mic_step. rewrite H0.
  apply sub_scaled_zero; [ by apply rvecs_row_length | done ].
Qed.

(** A pass over directions along which [d] is reduced changes nothing. *)
Lemma second_pass (ks : list nat) (d : list R) :
  length d = 3%nat ->
  (forall k, k ∈ ks -> (k < 3)%nat /\ reduced_along cell k d) ->
  mic_sequential cell ks d = (d, replicate (length ks) 0).
Proof.
  intros Hd. induction ks as [|k ks IH]; intros Hks; [ done | ].
  destruct (Hks k) as [Hk Hred]; [ by left | ].
  destruct (mic_step_fixed k d Hk Hd Hred) as [Hc Hst].
  cbn [mic_sequential]. rewrite Hst, Hc, IH; [ done | ].
  intros j Hj. apply Hks. by right.
Qed.

(** A pass over pairwise dual directions leaves [d] reduced along each of
    them, and along the directions [seen] that were reduced before. *)
Lemma first_pass (ks : list nat) : forall (seen : list nat) (d : list R),
  length d = 3%nat ->
  NoDup (seen ++ ks) ->
  (forall k, k ∈ seen ++ ks -> (k < 3)%nat) ->
  (forall i j, i ∈ seen ++ ks -> j ∈ seen ++ ks ->
     dot (row (gvecs cell) i) (row (rvecs cell) j)
     = if decide (i = j) then 1 else 0) ->
  (forall j, j ∈ seen -> reduced_along cell j d) ->
  forall j, j ∈ seen ++ ks ->
    reduced_along cell j (mic_sequential cell ks d).1.
Proof.
  induction ks as [|k ks IH]; intros seen d Hd Hnd Hlt Hdual Hseen.
  - simpl. rewrite app_nil_r in *. done.
  - rewrite mic_sequential_cons_1.
    assert (k ∈ seen ++ k :: ks) as Hk by (apply elem_of_app; right; by left).
    rewrite (assoc_L (++) seen [k] ks : seen ++ k :: ks = (seen ++ [k]) ++ ks)
      in *.
    apply IH; try done.
    + apply mic_step_length; auto.
    + intros j [Hj | Hj%list_elem_of_singleton]%elem_of_app.
      * apply mic_step_keeps; auto.
        rewrite Hdual;
          [ | apply elem_of_app; left; apply elem_of_app; by left | done ].
        case_decide as Hjk; [ | done ]. subst j.
        apply NoDup_app in Hnd as [Hnd _].
        apply NoDup_app in Hnd as (_ & Hnd & _).
        exfalso. apply (Hnd k Hj). by left.
      * subst j. apply mic_step_reduces; auto.
        rewrite Hdual by done. by rewrite decide_True.
Qed.

(** Adding a multiple of a vector commutes with the translation. *)
Lemma add_sequential_comm (r : list Z) (t : R) (v : list R) (ks : list nat) :
  forall x : list R,
    Forall (fun k => (k < 3)%nat) ks -> length v = 3%nat ->
    length x = 3%nat ->
    add_sequential cell ks r (add_scaled t v x)
    = add_scaled t v (add_sequential cell ks r x).
Proof.
  induction ks as [|k ks IH]; intros x Hks Hv Hx; [ done | ].
  apply Forall_cons in Hks as [Hk Hks]. cbn [add_sequential].
  rewrite <- IH by (by try apply add_scaled_length; try apply rvecs_row_length).
  f_equal. by apply add_scaled_comm; try apply rvecs_row_length.
Qed.

(** Translating the reduced displacement by the counts of its reduction
    gives the displacement back. *)
Lemma add_sequential_mic_sequential (r : list Z) (ks : list nat) :
  forall d : list R,
    Forall (fun k => (k < 3)%nat) ks -> length d = 3%nat ->
    Forall2 (fun k t => r.[k] = Ztrunc t) ks (mic_sequential cell ks d).2 ->
    add_sequential cell ks r (mic_sequential cell ks d).1 = d.
Proof.
  induction ks as [|k ks IH]; intros d Hks Hd Hr; [ done | ].
  apply Forall_cons in Hks as [Hk Hks].
  rewrite mic_sequential_cons_2 in Hr. apply Forall2_cons in Hr as [Hrk Hr].
  rewrite mic_sequential_cons_1. cbn [add_sequential].
  rewrite add_sequential_comm;
    try done; try (by apply rvecs_row_length);
    try (apply mic_sequential_length; by try apply mic_step_length).
  rewrite IH by (by try apply mic_step_length).
  rewrite Hrk. change (d_of_long ?z) with (IZR z).
  unfold mic_count at 1. rewrite long_of_count. fold (mic_count cell k d).
  unfold mic_step. by apply add_sub_scaled; try apply rvecs_row_length.
Qed.

End Steps.

Lemma active_elem (n : Z) (k : nat) : k ∈ active n <-> (Z.of_nat k < n)%Z.
Proof. unfold active. rewrite elem_of_seq. lia. Qed.

Lemma active_below (n : Z) :
  (n <= 3)%Z -> Forall (fun k => (k < 3)%nat) (active n).
Proof. intros Hn. apply Forall_forall. intros k Hk%active_elem. lia. Qed.

Lemma mic_sequential_counts (cell : cell_type R) (ks : list nat) :
  forall d : list R, length (mic_sequential cell ks d).2 = length ks.
Proof.
  induction ks as [|k ks IH]; intros d; [ done | ].
  rewrite mic_sequential_cons_2. simpl. by rewrite IH.
Qed.

(** C4: in exact arithmetic, for [nvec] in 0..3: when [r[k]] is the value
    [x] took in [cell_mic] at direction [k], converted to [long], for every
    active [k], then [cell_add_vec] with [r] on the reduced displacement
    gives the displacement [cell_mic] was called with. *)
Theorem mic_add_vec_round_trip (cell : cell_type R) (delta : list R)
    (r : list Z) :
  cell_sized cell -> length delta = 3%nat -> (0 <= nvec cell <= 3)%Z ->
  (forall k : nat, (Z.of_nat k < nvec cell)%Z ->
     r !! k = Some (d_to_long (cell_mic_trace delta cell).2.[k])) ->
  (cell_add_vec (cell_mic delta cell).1 cell r).1.1 = delta.
Proof.
  intros Hs Hd Hn Hcounts.
  pose proof (active_below (nvec cell) ltac:(lia)) as Hact.
  rewrite cell_mic_trace_sequential in Hcounts by done.
  rewrite cell_mic_sized_sequential by done. cbn [fst snd] in *.
  rewrite cell_add_vec_sequential
    by (done || by apply mic_sequential_length).
  cbn [fst]. apply add_sequential_mic_sequential; try done.
  apply Forall2_same_length_lookup_2.
  { by rewrite mic_sequential_counts. }
  intros i k t Hk Ht. unfold active in Hk.
  apply lookup_seq in Hk as [-> Hi]. simpl.
  rewrite (list_lookup_total_correct _ _ _ (Hcounts i ltac:(lia))).
  by rewrite (list_lookup_total_correct _ _ _ Ht).
Qed.

(** C5: in exact arithmetic, for [nvec] in 0..3 and active reciprocal rows
    dual to the active direct rows, [cell_mic] on a displacement that
    [cell_mic] has reduced returns it unchanged, and each value of [x] in
    that second call is 0. *)
Theorem cell_mic_idempotent (cell : cell_type R) (delta : list R) :
  cell_sized cell -> length delta = 3%nat -> (0 <= nvec cell <= 3)%Z ->
  dual cell ->
  let reduced := (cell_mic delta cell).1 in
  cell_mic reduced cell = (reduced, cell) /\
  (cell_mic_trace reduced cell).2 = replicate (Z.to_nat (nvec cell)) 0.
Proof.
  intros Hs Hd Hn Hdual reduced. subst reduced.
  pose proof (active_below (nvec cell) ltac:(lia)) as Hact.
  rewrite (cell_mic_sized_sequential delta) by done. cbn [fst].
  pose proof (mic_sequential_length cell Hs _ delta Hact Hd) as Hlen.
  assert (forall j, j ∈ active (nvec cell) ->
            reduced_along cell j
              (mic_sequential cell (active (nvec cell)) delta).1) as Hred.
  { apply (first_pass cell Hs (active (nvec cell)) [] delta); try done.
    - apply NoDup_seq.
    - intros k Hk%active_elem. lia.
    - intros i j Hi%active_elem Hj%active_elem. by apply Hdual.
    - intros j Hj. by apply elem_of_nil in Hj. }
  rewrite cell_mic_sized_sequential, cell_mic_trace_sequential by done.
  rewrite (second_pass cell Hs (active (nvec cell)) _ Hlen).
  - cbn [fst snd]. unfold active. by rewrite length_seq.
  - intros k Hk. split; [ apply active_elem in Hk; lia | by apply Hred ].
Qed.

(** In exact arithmetic the value [cell_to_center] stores at an active
    direction is the integer [-ceil(gvecs[k] . cart - 1/2)]. *)
Corollary cell_to_center_exact (cart : list R) (cell : cell_type R)
    (center : list Z) (k : nat) :
  cell_sized cell -> (1 <= nvec cell <= 3)%Z ->
  (Z.to_nat (nvec cell) <= length center)%nat ->
  (Z.of_nat k < nvec cell)%Z ->
  (cell_to_center cart cell center).2 !! k
  = Some (- Zceil (dot (row (gvecs cell) k) cart - 1 / 2))%Z.
Proof.
  intros Hs Hn Hc Hk. rewrite cell_to_center_lookup by done.
  unfold nearest. simpl. by rewrite <- opp_IZR, Ztrunc_IZR.
Qed.

End Exact.

(** ** The reduction, direction by direction *)

(** C2, as the claim has it, fails in the half-way case.  In the cubic
    cell of side 8 with one periodic direction the displacement
    [(12, 0, 0)] has the fractional projection 1.5, exactly half-way
    between 1 and 2.  [cell_mic] takes the count [ceil(1.5 - 0.5) = 1], the
    lower of the two, and leaves [(4, 0, 0)]; resolving the half-way case
    toward the ceiling would take [ceil(1.5) = 2]. *)
Lemma cell_mic_half_way_lower :
  dot (row (gvecs (cubic 1)) 0) [12; 0; 0]%float = 1.5%float /\
  cell_mic_trace [12; 0; 0]%float (cubic 1)
  = ([4; 0; 0]%float, cubic 1, [1]%float) /\
  d_ceil 1.5%float = 2%float /\
  PrimFloat.eqb 1 (d_ceil 1.5%float) = false.
Proof. repeat split. Qed.

(** C2, as the code has it.  For [nvec] in 1..3, in any arithmetic,
    [cell_mic] visits the active directions in index order; at direction
    [k] it takes [f = gvecs[k] . delta] on the displacement as the earlier
    directions left it and [t = ceil(f - 0.5)], and replaces the
    displacement by [delta - t * rvecs[k]] ([mic_step]); the directions
    [k >= nvec] are not visited.  In exact arithmetic [t] is an integer
    nearest to [f], with [f - t] in (-1/2, 1/2], and in the half-way case
    [f = n + 1/2] it is the lower one, [n].  In binary64 the difference
    [f - 0.5] is rounded before the [ceil], and [t] can miss the nearest
    integer: the projection just above -1/2 has the count -1. *)
Theorem cell_mic_sequential_reduction :
  (forall (D : Type) (H : Double D) (delta : list D) (cell : cell_type D),
     cell_sized cell -> length delta = 3%nat -> (1 <= nvec cell <= 3)%Z ->
     cell_mic delta cell
     = (foldl (fun d k => mic_step cell k d) delta
          (seq 0 (Z.to_nat (nvec cell))), cell)) /\
  (forall f : R,
     exists t : Z, nearest f = IZR t /\ (- (1 / 2) < f - IZR t <= 1 / 2)%R) /\
  (forall n : Z, nearest (IZR n + 1 / 2)%R = IZR n) /\
  (forall f : float, nearest f = float_ceil (PrimFloat.sub f 0.5)) /\
  nearest (-0x1.fffffffffffffp-2)%float = (-1)%float.
Proof.
  split; [ | split; [ | split; [ | split ] ] ].
  - intros D H delta cell. apply cell_mic_fold_steps.
  - intros f. exists (Zceil (f - 1 / 2)). split; [ reflexivity | ].
    apply (nearest_range f).
  - intros n. unfold nearest. simpl. f_equal. apply Zceil_unique. lra.
  - intros f. reflexivity.
  - vm_compute. reflexivity.
Qed.


(** ** What binary64 does to the claims of exact arithmetic *)

Lemma float_nan_or_nonneg_spec (v : float) :
  sf_nan_or_nonneg (Prim2SF v) -> float_nan_or_nonneg v.
Proof.
  intros [Hn | Hl].
  - left. unfold PrimFloat.is_nan. by rewrite FloatAxioms.eqb_spec, Hn.
  - right. by rewrite leb_spec.
Qed.

(** Rounding a magnitude with the sign [+] gives no negative number. *)
Lemma binary_round_aux_nan_or_nonneg (mx ex : Z) (lx : location) :
  sf_nan_or_nonneg (binary_round_aux prec emax false mx ex lx).
Proof.
  unfold binary_round_aux.
  destruct (shr_fexp prec emax mx ex lx) as [mrs' e'].
  destruct (shr_fexp prec emax _ e' loc_Exact) as [mrs'' e''].
  destruct (shr_m mrs'') as [|m|m]; [ by right | | by left ].
  destruct (e'' <=? emax - prec)%Z; by right.
Qed.

Lemma sqrt_nan_or_nonneg (x : float) :
  float_nan_or_nonneg (PrimFloat.sqrt x).
Proof.
  apply float_nan_or_nonneg_spec. rewrite sqrt_spec.
  unfold SF64sqrt, SFsqrt.
  destruct (Prim2SF x) as [s|s| |s m e].
  - right. by destruct s.
  - destruct s; [ by left | by right ].
  - by left.
  - destruct s; [ by left | ].
    destruct (SFsqrt_core_binary prec emax (Z.pos m) e) as [[mz ez] lz].
    apply binary_round_aux_nan_or_nonneg.
Qed.

Lemma abs_nan_or_nonneg (x : float) : float_nan_or_nonneg (PrimFloat.abs x).
Proof.
  apply float_nan_or_nonneg_spec. rewrite abs_spec.
  destruct (Prim2SF x) as [s|s| |s m e]; first [ by left | by right ].
Qed.

(** C1, as the claim has it, fails in binary64: the volume is not
    non-negative in every case.  The rows of [overflow_rvecs] are finite;
    at [nvec = 3] the products [rvecs[4] * rvecs[8]] and
    [rvecs[5] * rvecs[7]] both overflow to [+infinity], their difference
    is a NaN, and so is the stored volume: [0 <= volume] is false. *)
Lemma cell_update_volume_overflow_nan :
  volume (cell_update blank overflow_rvecs cubic_gvecs 3) = nan /\
  PrimFloat.leb 0 (volume (cell_update blank overflow_rvecs cubic_gvecs 3))
  = false.
Proof. split; reflexivity. Qed.

(** C1, as the code has it.  For [nvec] in 0..3 the stored volume is the
    volume of the specification evaluated in the arithmetic of the code:
    0; the norm of row 0; the square root of the Gram determinant of rows
    0 and 1 clamped at 0; the absolute scalar triple product.  In binary64
    this holds for every input, the clamp sending a determinant that is
    not above 0 (negative round-off, a NaN) to 0, and the volume is
    non-negative or a NaN.  In exact arithmetic it is non-negative in
    every case. *)
Theorem cell_update_volume :
  (forall (cell : cell_type float) (rv gv : list float) (n : Z),
     length rv = 9%nat -> (0 <= n <= 3)%Z ->
     volume (cell_update cell rv gv n)
     = volume_by_dimension float_max0 rv n /\
     float_nan_or_nonneg (volume (cell_update cell rv gv n))) /\
  (forall (cell : cell_type R) (rv gv : list R) (n : Z),
     length rv = 9%nat -> (0 <= n <= 3)%Z ->
     volume (cell_update cell rv gv n) = volume_spec rv n /\
     (0 <= volume (cell_update cell rv gv n))%R).
Proof.
  split.
  - intros cell rv gv n Hr Hn.
    pose proof (cell_update_volume_binary64 cell rv gv n Hr Hn) as Hv.
    split; [ exact Hv | ]. rewrite Hv.
    assert (n = 0 \/ n = 1 \/ n = 2 \/ n = 3)%Z
      as [-> | [-> | [-> | ->]]] by lia; cbn [volume_by_dimension].
    + by right.
    + apply sqrt_nan_or_nonneg.
    + apply sqrt_nan_or_nonneg.
    + apply abs_nan_or_nonneg.
  - intros cell rv gv n. apply cell_update_volume_exact.
Qed.

(** C4, as the claim has it, fails in binary64: the round trip does not
    give the displacement back, not even nearly.  The cell [skew60 2] is
    exactly dual.  Reducing [(0.5, 0.25, 0)] takes the count [-2^58] along
    direction 0 and leaves [(2^58, 0.25, 0)]: the sum [0.5 + 2^58] is
    rounded to [2^58].  Adding the counts back gives [(0, 0.25, 0)]. *)
Lemma round_trip_binary64_loses :
  dual (skew60 2) /\
  cell_mic_trace [0.5; 0.25; 0]%float (skew60 2)
  = ([0x1p+58; 0.25; 0]%float, skew60 2, [-0x1p+58; -0]%float) /\
  d_to_long <$> [-0x1p+58; -0]%float = [- 2 ^ 58; 0]%Z /\
  cell_add_vec [0x1p+58; 0.25; 0]%float (skew60 2) [- 2 ^ 58; 0]%Z
  = ([0; 0.25; 0]%float, skew60 2, [- 2 ^ 58; 0]%Z).
Proof.
  split; [ | repeat split ].
  intros i j Hi Hj. cbn [nvec skew60] in Hi, Hj.
  destruct i as [|[|i]]; [ | | lia ];
    (destruct j as [|[|j]]; [ | | lia ]); reflexivity.
Qed.

(** C5, as the claim has it, fails in binary64: a second pass can move
    the reduced displacement by a whole lattice vector.  The cubic cell of
    side 8 with one periodic direction is exactly dual.  [cell_mic] reduces
    [(2^55 + 8, 0, 0)] to [(8, 0, 0)] with the count [2^52] (the
    difference [2^52 + 1 - 0.5] is rounded to [2^52]), and reduces
    [(8, 0, 0)] to [(0, 0, 0)] with the count 1. *)
Lemma cell_mic_binary64_second_pass :
  dual (cubic 1) /\
  cell_mic_trace [0x1.0000000000001p+55; 0; 0]%float (cubic 1)
  = ([8; 0; 0]%float, cubic 1, [0x1p+52]%float) /\
  cell_mic_trace [8; 0; 0]%float (cubic 1)
  = ([0; 0; 0]%float, cubic 1, [1]%float).
Proof.
  split; [ | repeat split ].
  intros i j Hi Hj. cbn [nvec cubic] in Hi, Hj.
  destruct i as [|i]; [ | lia ]; (destruct j as [|j]; [ | lia ]);
    reflexivity.
Qed.

(** ** Concrete runs *)

(** The cubic cell of side 8 in binary64: the update computes the record
    [cubic 3]. *)
Example cubic_update : cell_update blank cubic_rvecs cubic_gvecs 3 = cubic 3.
Proof. vm_compute. reflexivity. Qed.

(** The reduction of [(7, -3, 12)]: the projections are 0.875, -0.375 and
    1.5, the counts 1, -0 and 1 (the half-way case 1.5 - 0.5 = 1 is not
    rounded further). *)
Example mic_cubic :
  cell_mic_trace [7; -3; 12]%float (cubic 3)
  = ([-1; -3; 4]%float, cubic 3, [1; -0; 1]%float).
Proof. vm_compute. reflexivity. Qed.

(** [cell_to_center] on the same vector reads the unreduced entries. *)
Example to_center_cubic :
  cell_to_center [7; -3; 12]%float (cubic 3) [4; 5; 6]%Z
  = ([7; -3; 12]%float, cubic 3, [-1; 0; -1]%Z).
Proof. vm_compute. reflexivity. Qed.

(** Adding the counts back, and reducing a second time. *)
Example add_vec_cubic :
  cell_add_vec [-1; -3; 4]%float (cubic 3) [1; 0; 1]%Z
  = ([7; -3; 12]%float, cubic 3, [1; 0; 1]%Z).
Proof. vm_compute. reflexivity. Qed.

(** Adding the negated counts does not give the displacement back. *)
Example add_vec_negated_cubic :
  cell_add_vec [-1; -3; 4]%float (cubic 3) [-1; 0; -1]%Z
  = ([-9; -3; -4]%float, cubic 3, [-1; 0; -1]%Z).
Proof. vm_compute. reflexivity. Qed.

Example mic_twice_cubic :
  cell_mic_trace [-1; -3; 4]%float (cubic 3)
  = ([-1; -3; 4]%float, cubic 3, [-0; -0; 0]%float).
Proof. vm_compute. reflexivity. Qed.

(** A slab: with [nvec = 2] the third entry is left alone, and a copy
    without [full] writes six of the nine slots. *)
Example mic_slab :
  cell_mic [13; -3; 12]%float (cubic 2) = ([-3; -3; 12]%float, cubic 2).
Proof. vm_compute. reflexivity. Qed.

Example copy_part :
  cell_copy_rvecs (cubic 2) (replicate 9 1%float) 0
  = (cubic 2, [8; 0; 0; 0; 8; 0; 1; 1; 1]%float).
Proof. vm_compute. reflexivity. Qed.

(** In binary64 the Gram determinant of the rows of [roundoff_rvecs]
    rounds to a negative number, and the stored volume is 0. *)
Example volume_roundoff :
  (let a := row roundoff_rvecs 0 in
   let b := row roundoff_rvecs 1 in
   d_sub (d_mul (dot a a) (dot b b)) (d_mul (dot a b) (dot a b)))
  = (-0x1p-53)%float /\
  volume (cell_update blank roundoff_rvecs cubic_gvecs 2) = 0%float.
Proof. split; vm_compute; reflexivity. Qed.

(** Two collinear rows span no area. *)
Example volume_collinear :
  volume (cell_update blank [1; 2; 3; 2; 4; 6; 0; 0; 1]%float cubic_gvecs 2)
  = 0%float.
Proof. vm_compute. reflexivity. Qed.

(** The amended C2 at the cubic cell. *)
Lemma cell_mic_sequential_reduction_witness :
  cell_mic [7; -3; 12]%float (cubic 3)
  = (foldl (fun d k => mic_step (cubic 3) k d) [7; -3; 12]%float
       (seq 0 (Z.to_nat (nvec (cubic 3)))), cubic 3).
Proof.
  apply (proj1 cell_mic_sequential_reduction float _
           [7; -3; 12]%float (cubic 3)).
  - repeat split.
  - reflexivity.
  - simpl. lia.
Defined.

(** C6 at the cubic cell with no periodic direction. *)
Lemma nvec0_no_ops_witness :
  let delta := [7; -3; 12]%float in
  let center := [4; 5; 6]%Z in
  cell_mic delta (cubic 0) = (delta, cubic 0) /\
  cell_to_center delta (cubic 0) center = (delta, cubic 0, center) /\
  cell_add_vec delta (cubic 0) center = (delta, cubic 0, center).
Proof.
  intros delta center.
  apply (nvec0_no_ops (cubic 0) delta delta center center). reflexivity.
Defined.

(** C9 at the cubic cell. *)
Lemma cell_to_center_counts_witness :
  let cart := [7; -3; 12]%float in
  let center := [4; 5; 6]%Z in
  (cell_to_center cart (cubic 3) center).1 = (cart, cubic 3) /\
  forall k : nat, (Z.of_nat k < nvec (cubic 3))%Z ->
    (cell_to_center cart (cubic 3) center).2 !! k
    = Some (d_to_long
              (d_neg (nearest (dot (row (gvecs (cubic 3)) k) cart)))).
Proof.
  intros cart center.
  apply (cell_to_center_counts cart (cubic 3) center).
  - repeat split.
  - simpl. lia.
  - simpl. lia.
Defined.

(** C10 at the cubic cell with one periodic direction. *)
Lemma cell_to_center_frame_witness :
  let cart := [7; -3; 12]%float in
  let center := [4; 5; 6]%Z in
  length (cell_to_center cart (cubic 1) center).2 = length center /\
  (forall k : nat, (nvec (cubic 1) <= Z.of_nat k)%Z ->
     (cell_to_center cart (cubic 1) center).2 !! k = center !! k) /\
  (nvec (cubic 1) = 0%Z ->
   (cell_to_center cart (cubic 1) center).2 = center).
Proof.
  intros cart center.
  apply (cell_to_center_frame cart (cubic 1) center). simpl. lia.
Defined.

(** C7 at the cubic slab. *)
Lemma copy_accessor_modes_witness :
  copy_modes cell_copy_rvecs rvecs 3 (cubic 2) /\
  copy_modes cell_copy_gvecs gvecs 3 (cubic 2) /\
  copy_modes cell_copy_rspacings rspacings 1 (cubic 2) /\
  copy_modes cell_copy_gspacings gspacings 1 (cubic 2).
Proof.
  apply (copy_accessor_modes (cubic 2)). repeat split.
Defined.

Section ExactRuns.
Local Open Scope R_scope.

(** The unit cube in exact arithmetic: [(7/4, -1/4, 5/2)] is reduced to
    [(-1/4, -1/4, 1/2)] with the counts 2, 0 and 2; the projection 5/2 lies
    half-way, and [ceil(5/2 - 1/2) = 2] keeps the upper end 1/2. *)
Example mic_unit_cube :
  cell_mic_trace [7 / 4; - (1 / 4); 5 / 2] (unit_cell 3)
  = ([- (1 / 4); - (1 / 4); 1 / 2], unit_cell 3, [2; 0; 2]).
Proof.
  rewrite cell_mic_trace_sequential by (repeat split || (simpl; lia)).
  change (active (nvec (unit_cell 3))) with [0; 1; 2]%nat.
  assert (forall d0 d1 d2 k t, (k < 3)%nat ->
            IZR t - 1 < [d0; d1; d2].[k] - 1 / 2 <= IZR t ->
            mic_count (unit_cell 3) k [d0; d1; d2] = IZR t) as Hcount.
  { intros d0 d1 d2 k t Hk Ht. unfold mic_count, nearest. simpl.
    f_equal. apply Zceil_unique.
    destruct k as [|[|[|k]]]; [ | | | lia ]; unfold dot; simpl in *; lra. }
  assert (mic_count (unit_cell 3) 0 [7 / 4; - (1 / 4); 5 / 2] = 2) as C0
    by (apply (Hcount _ _ _ 0%nat 2%Z); simpl; lra || lia).
  assert (mic_step (unit_cell 3) 0 [7 / 4; - (1 / 4); 5 / 2]
          = [- (1 / 4); - (1 / 4); 5 / 2]) as S0
    by (unfold mic_step; rewrite C0; vec3_by ltac:(lra)).
  assert (mic_count (unit_cell 3) 1 [- (1 / 4); - (1 / 4); 5 / 2] = 0) as C1
    by (apply (Hcount _ _ _ 1%nat 0%Z); simpl; lra || lia).
  assert (mic_step (unit_cell 3) 1 [- (1 / 4); - (1 / 4); 5 / 2]
          = [- (1 / 4); - (1 / 4); 5 / 2]) as S1
    by (unfold mic_step; rewrite C1; vec3_by ltac:(lra)).
  assert (mic_count (unit_cell 3) 2 [- (1 / 4); - (1 / 4); 5 / 2] = 2) as C2
    by (apply (Hcount _ _ _ 2%nat 2%Z); simpl; lra || lia).
  assert (mic_step (unit_cell 3) 2 [- (1 / 4); - (1 / 4); 5 / 2]
          = [- (1 / 4); - (1 / 4); 1 / 2]) as S2
    by (unfold mic_step; rewrite C2; vec3_by ltac:(lra)).
  cbn [mic_sequential]. rewrite C0, S0, C1, S1, C2, S2. reflexivity.
Qed.

(** C1 at the rows of [roundoff_rvecs] in binary64, where the Gram
    determinant rounds to a negative number and the clamp gives the volume
    0, and at the unit cube in exact arithmetic. *)
Lemma cell_update_volume_witness :
  let rv := [1; 0; 0; 0; 1; 0; 0; 0; 1] in
  (volume (cell_update blank roundoff_rvecs cubic_gvecs 2)
   = volume_by_dimension float_max0 roundoff_rvecs 2 /\
   float_nan_or_nonneg
     (volume (cell_update blank roundoff_rvecs cubic_gvecs 2))) /\
  (volume (cell_update (unit_cell 0) rv rv 3) = volume_spec rv 3 /\
   0 <= volume (cell_update (unit_cell 0) rv rv 3)).
Proof.
  intros rv. split.
  - apply (proj1 cell_update_volume blank roundoff_rvecs cubic_gvecs 2%Z).
    + reflexivity.
    + lia.
  - apply (proj2 cell_update_volume (unit_cell 0) rv rv 3%Z).
    + reflexivity.
    + lia.
Defined.

(** C5 at the unit cube, whose rows are their own duals. *)
Lemma cell_mic_idempotent_witness :
  let delta := [7 / 4; - (1 / 4); 5 / 2] in
  let reduced := (cell_mic delta (unit_cell 3)).1 in
  cell_mic reduced (unit_cell 3) = (reduced, unit_cell 3) /\
  (cell_mic_trace reduced (unit_cell 3)).2
  = replicate (Z.to_nat (nvec (unit_cell 3))) 0.
Proof.
  intros delta.
  apply (cell_mic_idempotent (unit_cell 3) delta).
  - repeat split.
  - reflexivity.
  - simpl. lia.
  - intros i j Hi Hj. simpl in Hi, Hj.
    destruct i as [|[|[|i]]]; [ | | | lia ];
      (destruct j as [|[|[|j]]]; [ | | | lia ]);
      unfold dot; simpl; ring.
Defined.

(** C4 at the unit cube, with the counts of the reduction as [r]. *)
Lemma mic_add_vec_round_trip_witness :
  let delta := [7 / 4; - (1 / 4); 5 / 2] in
  let r := d_to_long <$> (cell_mic_trace delta (unit_cell 3)).2 in
  (cell_add_vec (cell_mic delta (unit_cell 3)).1 (unit_cell 3) r).1.1 = delta.
Proof.
  intros delta r.
  apply (mic_add_vec_round_trip (unit_cell 3) delta r).
  - repeat split.
  - reflexivity.
  - simpl. lia.
  - intros k Hk. simpl in Hk.
    destruct k as [|[|[|k]]]; [ reflexivity | reflexivity | reflexivity | lia ].
Defined.

End ExactRuns.

(** ** More of the code, in any arithmetic *)

Section MoreStructure.
Context {D : Type} `{Double D}.
Local Open Scope double_scope.

(** The projection on a reciprocal row, entry by entry. *)
Lemma dot_row (m v : list D) (k : nat) :
  dot (row m k) v
  = m.[3 * k] * v.[0] + m.[3 * k + 1] * v.[1] + m.[3 * k + 2] * v.[2].
Proof.
  unfold dot. rewrite !row_lookup by lia. by rewrite Nat.add_0_r.
Qed.

(** The store of [cell_to_frac] at each of the three rows. *)
Lemma cell_to_frac_lookup (cell : cell_type D) (cart frac : list D)
    (k : nat) :
  (3 <= length frac)%nat -> (k < 3)%nat ->
  (cell_to_frac cell cart frac).2 !! k
  = Some (dot (row (gvecs cell) k) cart).
Proof.
  intros Hf Hk. unfold cell_to_frac. cbn [snd]. rewrite !dot_row.
  destruct k as [|[|[|k]]]; [ | | | lia ];
    rewrite ?list_lookup_insert_ne by lia;
    rewrite list_lookup_insert_eq by (rewrite ?length_insert; lia);
    reflexivity.
Qed.

(** X1: [cell_to_frac] never reads [nvec]: on any cell it stores the
    projections of [cart] on all three reciprocal rows in [frac[0..2]],
    leaves the entries of [frac] past those, and returns [cart] and the
    cell as they were. *)
Theorem cell_to_frac_projections (cell : cell_type D) (cart frac : list D) :
  (3 <= length frac)%nat ->
  (cell_to_frac cell cart frac).1 = (cell, cart) /\
  length (cell_to_frac cell cart frac).2 = length frac /\
  (forall k : nat, (k < 3)%nat ->
     (cell_to_frac cell cart frac).2 !! k
     = Some (dot (row (gvecs cell) k) cart)) /\
  (forall k : nat, (3 <= k)%nat ->
     (cell_to_frac cell cart frac).2 !! k = frac !! k).
Proof.
  intros Hf. split; [ reflexivity | ].
  split; [ unfold cell_to_frac; cbn [snd]; by rewrite !length_insert | ].
  split.
  - intros k Hk. by apply cell_to_frac_lookup.
  - intros k Hk. unfold cell_to_frac. cbn [snd].
    by rewrite !list_lookup_insert_ne by lia.
Qed.

(** X2: at an active direction, the entry [cell_to_center] stores is the
    entry [cell_to_frac] stores for the same vector, rounded:
    [center[k] = (long)(-ceil(frac[k] - 0.5))]. *)
Theorem cell_to_center_rounds_frac (cart : list D) (cell : cell_type D)
    (center : list Z) (frac : list D) (k : nat) :
  cell_sized cell -> (1 <= nvec cell <= 3)%Z ->
  (Z.to_nat (nvec cell) <= length center)%nat -> (3 <= length frac)%nat ->
  (Z.of_nat k < nvec cell)%Z ->
  (cell_to_center cart cell center).2 !! k
  = Some (d_to_long
            (- d_ceil ((cell_to_frac cell cart frac).2.[k] - d_half))).
Proof.
  intros Hs Hn Hc Hf Hk.
  rewrite cell_to_center_lookup by done.
  unfold cell_to_frac. cbn [snd]. rewrite !dot_row. unfold nearest.
  destruct k as [|[|[|k]]]; [ | | | lia ]; do 4 f_equal;
    rewrite ?list_lookup_total_insert_ne by lia;
    rewrite list_lookup_total_insert_eq by (rewrite ?length_insert; lia);
    reflexivity.
Qed.

(** The volume stored for a count in 0..3 is computed from [rvecs]
    alone. *)
Lemma cell_update_volume_fresh (c1 c2 : cell_type D) (rv gv : list D)
    (n : Z) :
  (0 <= n <= 3)%Z ->
  volume (cell_update c1 rv gv n) = volume (cell_update c2 rv gv n).
Proof.
  intros Hn. unfold cell_update.
  assert (n = 0 \/ n = 1 \/ n = 2 \/ n = 3)%Z
    as [-> | [-> | [-> | ->]]] by lia; try reflexivity.
  cbn [Z.eqb Pos.eqb].
  match goal with |- context [d_gt ?t d_zero] => destruct (d_gt t d_zero) end;
    reflexivity.
Qed.

(** X3: for a count in 0..3, [cell_update] leaves nothing of the cell it
    was given: two cells of the struct's sizes are equal after the same
    update. *)
Theorem cell_update_forgets (c1 c2 : cell_type D) (rv gv : list D) (n : Z) :
  cell_sized c1 -> cell_sized c2 ->
  length rv = 9%nat -> length gv = 9%nat -> (0 <= n <= 3)%Z ->
  cell_update c1 rv gv n = cell_update c2 rv gv n.
Proof.
  intros Hs1 Hs2 Hrv Hgv Hn.
  destruct (cell_update_stores c1 rv gv n Hs1 Hrv Hgv)
    as (A1 & A2 & A3 & A4 & A5).
  destruct (cell_update_stores c2 rv gv n Hs2 Hrv Hgv)
    as (B1 & B2 & B3 & B4 & B5).
  pose proof (cell_update_volume_fresh c1 c2 rv gv n Hn) as V.
  destruct (cell_update c1 rv gv n) as [r1 g1 rs1 gs1 v1 n1].
  destruct (cell_update c2 rv gv n) as [r2 g2 rs2 gs2 v2 n2].
  cbn [nvec rvecs gvecs rspacings gspacings volume] in *. by subst.
Qed.

(** After an update the cell has the sizes of the struct. *)
Lemma cell_update_sized (cell : cell_type D) (rv gv : list D) (n : Z) :
  cell_sized cell -> length rv = 9%nat -> length gv = 9%nat ->
  cell_sized (cell_update cell rv gv n).
Proof.
  intros Hs Hrv Hgv.
  destruct (cell_update_stores cell rv gv n Hs Hrv Hgv)
    as (_ & E2 & E3 & E4 & E5).
  unfold cell_sized. by rewrite E2, E3, E4, E5.
Qed.

(** X4: what [cell_update] stored is what the accessors give back, for
    every count: [cell_get_nvec] returns the count, and the copies with
    [full] set return the two matrices as they were passed and the six
    spacings computed from them. *)
Theorem cell_update_read_back (cell : cell_type D) (rv gv : list D) (n : Z)
    (out9 out3 : list D) (full : Z) :
  cell_sized cell -> length rv = 9%nat -> length gv = 9%nat ->
  length out9 = 9%nat -> length out3 = 3%nat -> full <> 0%Z ->
  let cell' := cell_update cell rv gv n in
  cell_get_nvec cell' = n /\
  (cell_copy_rvecs cell' out9 full).2 = rv /\
  (cell_copy_gvecs cell' out9 full).2 = gv /\
  (cell_copy_rspacings cell' out3 full).2
  = [spacing gv 0; spacing gv 1; spacing gv 2] /\
  (cell_copy_gspacings cell' out3 full).2
  = [spacing rv 0; spacing rv 1; spacing rv 2].
Proof.
  intros Hs Hrv Hgv Ho9 Ho3 Hf cell'.
  destruct (cell_update_stores cell rv gv n Hs Hrv Hgv)
    as (E1 & E2 & E3 & E4 & E5). fold cell' in E1, E2, E3, E4, E5.
  assert (forall (src out : list D) (m : nat),
            length src = m -> length out = m ->
            for_lt (Z.of_nat m) (fun i o => <[i := src.[i]]> o) out = src)
    as Hcopy.
  { intros src out m Hsrc Hout. rewrite for_lt_copy by lia.
    unfold overwritten. rewrite Nat2Z.id.
    rewrite take_ge, drop_ge by lia. apply app_nil_r. }
  unfold cell_get_nvec, cell_copy_rvecs, cell_copy_gvecs,
    cell_copy_rspacings, cell_copy_gspacings. cbn [snd].
  destruct (Z.eqb_spec full 0); [ done | ].
  split; [ done | ].
  split; [ | split; [ | split ] ].
  - etrans; [ | exact E2 ]. apply (Hcopy _ _ 9%nat); [ by rewrite E2 | done ].
  - etrans; [ | exact E3 ]. apply (Hcopy _ _ 9%nat); [ by rewrite E3 | done ].
  - etrans; [ | exact E4 ]. apply (Hcopy _ _ 3%nat); [ by rewrite E4 | done ].
  - etrans; [ | exact E5 ]. apply (Hcopy _ _ 3%nat); [ by rewrite E5 | done ].
Qed.

(** X5: the three functions test the count against 0, 1 and 2 only.
    With any other count, a negative one or one above 3, [cell_mic]
    reduces along all three directions, [cell_to_center] stores all three
    entries and [cell_add_vec] adds all three rows. *)
Theorem invalid_nvec_runs_all_directions (cell : cell_type D)
    (delta : list D) (center r : list Z) :
  cell_sized cell -> length delta = 3%nat -> (3 <= length center)%nat ->
  nvec cell <> 0%Z -> nvec cell <> 1%Z -> nvec cell <> 2%Z ->
  cell_mic delta cell
  = (foldl (fun d k => mic_step cell k d) delta [0; 1; 2]%nat, cell) /\
  (forall k : nat, (k < 3)%nat ->
     (cell_to_center delta cell center).2 !! k
     = Some (d_to_long (- nearest (dot (row (gvecs cell) k) delta)))) /\
  cell_add_vec delta cell r
  = (add_sequential cell [0; 1; 2]%nat r delta, cell, r).
Proof.
  intros (Hr & Hg & _ & _) Hd Hc H0 H1 H2.
  destruct cell as [rv gv rs gs vol n]. cbn [rvecs gvecs nvec] in *.
  explode delta Hd. explode rv Hr. explode gv Hg.
  split; [ | split ].
  - other_count n; reflexivity.
  - intros k Hk. unfold cell_to_center. cbn [gvecs nvec].
    other_count n; cbn [Z.eqb Pos.eqb snd];
      (destruct k as [|[|[|k]]]; [ | | | lia ]);
      rewrite ?list_lookup_insert_ne by lia;
      rewrite list_lookup_insert_eq by (rewrite ?length_insert; lia);
      reflexivity.
  - other_count n; reflexivity.
Qed.

End MoreStructure.

(** ** Lattice translations, in exact arithmetic *)

Section Lattice.
Local Open Scope R_scope.

Lemma Zceil_shift (x : R) (n : Z) : Zceil (x + IZR n) = (Zceil x + n)%Z.
Proof.
  apply Zceil_unique. rewrite plus_IZR. destruct (Zceil_spec x). lra.
Qed.

(** Shifting a projection by an integer shifts its count by that integer. *)
Lemma nearest_shift (f : R) (n : Z) : nearest (f + IZR n) = nearest f + IZR n.
Proof.
  unfold nearest. simpl.
  replace (f + IZR n - 1 / 2) with (f - 1 / 2 + IZR n) by ring.
  by rewrite Zceil_shift, plus_IZR.
Qed.

Lemma dot_add_scaled (g v d : list R) (t : R) :
  length v = 3%nat -> length d = 3%nat ->
  dot g (add_scaled t v d) = dot g d + t * dot g v.
Proof.
  intros Hv Hd. explode v Hv. explode d Hd. unfold dot. simpl. ring.
Qed.

Lemma sub_add_scaled_comm (s t : R) (v w d : list R) :
  length v = 3%nat -> length w = 3%nat -> length d = 3%nat ->
  sub_scaled s v (add_scaled t w d) = add_scaled t w (sub_scaled s v d).
Proof.
  intros Hv Hw Hd. explode v Hv. explode w Hw. explode d Hd.
  unfold add_scaled, sub_scaled. vec3.
Qed.

(** Subtracting [(s + t) * v] after adding [t * v] subtracts [s * v]. *)
Lemma sub_scaled_add_scaled (s t : R) (v d : list R) :
  length v = 3%nat -> length d = 3%nat ->
  sub_scaled (s + t) v (add_scaled t v d) = sub_scaled s v d.
Proof.
  intros Hv Hd. explode v Hv. explode d Hd.
  unfold add_scaled, sub_scaled. vec3.
Qed.

Lemma add_scaled_neg (t : R) (v d : list R) :
  length v = 3%nat -> length d = 3%nat ->
  add_scaled (- t) v d = sub_scaled t v d.
Proof.
  intros Hv Hd. explode v Hv. explode d Hd.
  unfold add_scaled, sub_scaled. vec3.
Qed.

Lemma add_scaled_add (s t : R) (v d : list R) :
  length v = 3%nat -> length d = 3%nat ->
  add_scaled t v (add_scaled s v d) = add_scaled (s + t) v d.
Proof.
  intros Hv Hd. explode v Hv. explode d Hd. unfold add_scaled. vec3.
Qed.

Section OneCell.
Context (cell : cell_type R) (Hsized : cell_sized cell).

Lemma add_sequential_length (r : list Z) (ks : list nat) : forall d : list R,
  Forall (fun k => (k < 3)%nat) ks -> length d = 3%nat ->
  length (add_sequential cell ks r d) = 3%nat.
Proof.
  induction ks as [|k ks IH]; intros d Hks Hd; [ done | ].
  apply Forall_cons in Hks as [Hk Hks]. cbn [add_sequential].
  apply IH; [ done | ].
  by apply add_scaled_length; [ apply rvecs_row_length | ].
Qed.

Lemma add_sequential_sub_comm (r : list Z) (t : R) (k : nat)
    (ks : list nat) : forall x : list R,
  Forall (fun k => (k < 3)%nat) ks -> (k < 3)%nat -> length x = 3%nat ->
  add_sequential cell ks r (sub_scaled t (row (rvecs cell) k) x)
  = sub_scaled t (row (rvecs cell) k) (add_sequential cell ks r x).
Proof.
  induction ks as [|j ks IH]; intros x Hks Hk Hx; [ done | ].
  apply Forall_cons in Hks as [Hj Hks]. cbn [add_sequential].
  rewrite <- IH
    by (by try apply add_scaled_length; try apply rvecs_row_length).
  f_equal. symmetry.
  by apply sub_add_scaled_comm; try apply rvecs_row_length.
Qed.

(** The projection on a reciprocal row orthogonal to every direct row of
    [ks] is not changed by the translation. *)
Lemma dot_add_sequential_other (r : list Z) (g : list R) (ks : list nat) :
  forall d : list R,
    Forall (fun k => (k < 3)%nat) ks -> length d = 3%nat ->
    (forall k, k ∈ ks -> dot g (row (rvecs cell) k) = 0) ->
    dot g (add_sequential cell ks r d) = dot g d.
Proof.
  induction ks as [|k ks IH]; intros d Hks Hd Horth; [ done | ].
  apply Forall_cons in Hks as [Hk Hks]. cbn [add_sequential].
  rewrite IH; [ | done | by apply add_scaled_length; [ apply rvecs_row_length | ]
               | intros j Hj; apply Horth; by right ].
  rewrite dot_add_scaled by (by try apply rvecs_row_length).
  rewrite (Horth k) by (by left). ring.
Qed.

(** Under duality the translation shifts the projection on the reciprocal
    row [j] by [r[j]]. *)
Lemma dot_add_sequential_dual (r : list Z) (j : nat) (ks : list nat) :
  forall d : list R,
    Forall (fun k => (k < 3)%nat) ks -> length d = 3%nat -> NoDup ks ->
    j ∈ ks ->
    (forall k, k ∈ ks ->
       dot (row (gvecs cell) j) (row (rvecs cell) k)
       = if decide (j = k) then 1 else 0) ->
    dot (row (gvecs cell) j) (add_sequential cell ks r d)
    = dot (row (gvecs cell) j) d + IZR r.[j].
Proof.
  induction ks as [|k ks IH]; intros d Hks Hd Hnd Hj Hdual.
  { by apply elem_of_nil in Hj. }
  apply Forall_cons in Hks as [Hk Hks]. apply NoDup_cons in Hnd as [Hk' Hnd].
  cbn [add_sequential].
  assert (length (add_scaled (d_of_long r.[k]) (row (rvecs cell) k) d)
          = 3%nat) as Hlen
    by (by apply add_scaled_length; [ apply rvecs_row_length | ]).
  destruct (decide (j = k)) as [-> | Hne].
  - rewrite dot_add_sequential_other; [ | done | done | ].
    + rewrite dot_add_scaled by (by try apply rvecs_row_length).
      rewrite Hdual by (by left). rewrite decide_True by done.
      change (d_of_long ?z) with (IZR z). ring.
    + intros i Hi. rewrite Hdual by (by right).
      apply decide_False. intros ->. done.
  - apply elem_of_cons in Hj as [-> | Hj]; [ done | ].
    rewrite IH; [ | done | done | done | done
                | intros i Hi; apply Hdual; by right ].
    rewrite dot_add_scaled by (by try apply rvecs_row_length).
    rewrite (Hdual k) by (by left). rewrite decide_False by done. ring.
Qed.

(** Under duality the reduction does not see a lattice translation. *)
Lemma mic_sequential_add_sequential (r : list Z) (ks : list nat) :
  forall d : list R,
    Forall (fun k => (k < 3)%nat) ks -> length d = 3%nat -> NoDup ks ->
    (forall i j, i ∈ ks -> j ∈ ks ->
       dot (row (gvecs cell) i) (row (rvecs cell) j)
       = if decide (i = j) then 1 else 0) ->
    (mic_sequential cell ks (add_sequential cell ks r d)).1
    = (mic_sequential cell ks d).1.
Proof.
  induction ks as [|k ks IH]; intros d Hks Hd Hnd Hdual; [ done | ].
  apply Forall_cons in Hks as [Hk Hks]. apply NoDup_cons in Hnd as [Hk' Hnd].
  rewrite !mic_sequential_cons_1. cbn [add_sequential].
  pose proof (rvecs_row_length cell Hsized k Hk) as Hrow.
  rewrite add_sequential_comm by done.
  set (e := add_sequential cell ks r d).
  assert (length e = 3%nat) as He by (by apply add_sequential_length).
  assert (dot (row (gvecs cell) k) e = dot (row (gvecs cell) k) d) as Hke.
  { apply dot_add_sequential_other; try done.
    intros j Hj. rewrite Hdual; [ | by left | by right ].
    apply decide_False. intros ->. done. }
  assert (mic_step cell k (add_scaled (d_of_long r.[k]) (row (rvecs cell) k) e)
          = add_sequential cell ks r (mic_step cell k d)) as ->.
  { unfold mic_step, mic_count.
    rewrite dot_add_scaled by done.
    rewrite Hdual by (by left). rewrite decide_True by done.
    change (d_of_long ?z) with (IZR z). rewrite Rmult_1_r, nearest_shift.
    rewrite sub_scaled_add_scaled by done. rewrite Hke.
    subst e. by rewrite add_sequential_sub_comm. }
  apply IH; try done.
  - by apply mic_step_length.
  - intros i j Hi Hj. apply Hdual; by right.
Qed.

(** Under duality the counts may be taken on the displacement as it was
    given: the reduction is the translation by the negated counts. *)
Lemma mic_sequential_independent (c : list Z) (ks : list nat) :
  forall d : list R,
    Forall (fun k => (k < 3)%nat) ks -> length d = 3%nat -> NoDup ks ->
    (forall i j, i ∈ ks -> j ∈ ks ->
       dot (row (gvecs cell) i) (row (rvecs cell) j)
       = if decide (i = j) then 1 else 0) ->
    (forall k, k ∈ ks -> IZR c.[k] = - mic_count cell k d) ->
    (mic_sequential cell ks d).1 = add_sequential cell ks c d.
Proof.
  induction ks as [|k ks IH]; intros d Hks Hd Hnd Hdual Hc; [ done | ].
  apply Forall_cons in Hks as [Hk Hks]. apply NoDup_cons in Hnd as [Hk' Hnd].
  pose proof (rvecs_row_length cell Hsized k Hk) as Hrow.
  rewrite mic_sequential_cons_1. cbn [add_sequential].
  change (d_of_long ?z) with (IZR z). rewrite (Hc k) by (by left).
  rewrite add_scaled_neg by done. fold (mic_step cell k d).
  apply IH; try done.
  - by apply mic_step_length.
  - intros i j Hi Hj. apply Hdual; by right.
  - intros j Hj. rewrite (Hc j) by (by right). f_equal.
    unfold mic_count, mic_step. f_equal.
    rewrite dot_sub_scaled by done.
    rewrite Hdual; [ | by right | by left ].
    rewrite decide_False by (intros ->; done). ring.
Qed.

Lemma add_sequential_plus (r r' s : list Z) (ks : list nat) :
  forall d : list R,
    Forall (fun k => (k < 3)%nat) ks -> length d = 3%nat ->
    (forall k, k ∈ ks -> s.[k] = (r.[k] + r'.[k])%Z) ->
    add_sequential cell ks r' (add_sequential cell ks r d)
    = add_sequential cell ks s d.
Proof.
  induction ks as [|k ks IH]; intros d Hks Hd Hs; [ done | ].
  apply Forall_cons in Hks as [Hk Hks].
  pose proof (rvecs_row_length cell Hsized k Hk) as Hrow.
  cbn [add_sequential].
  rewrite <- (add_sequential_comm cell Hsized r)
    by (by try apply add_scaled_length).
  rewrite add_scaled_add by done.
  change (d_of_long ?z) with (IZR z).
  rewrite <- plus_IZR, <- (Hs k) by (by left).
  apply IH; [ done | by apply add_scaled_length | ].
  intros j Hj. apply Hs. by right.
Qed.

Lemma add_sequential_zero (s : list Z) (ks : list nat) :
  forall d : list R,
    Forall (fun k => (k < 3)%nat) ks -> length d = 3%nat ->
    (forall k, k ∈ ks -> s.[k] = 0%Z) ->
    add_sequential cell ks s d = d.
Proof.
  induction ks as [|k ks IH]; intros d Hks Hd Hs; [ done | ].
  apply Forall_cons in Hks as [Hk Hks].
  pose proof (rvecs_row_length cell Hsized k Hk) as Hrow.
  cbn [add_sequential]. rewrite (Hs k) by (by left).
  change (d_of_long 0%Z) with 0.
  replace 0 with (- 0) by ring.
  rewrite add_scaled_neg, sub_scaled_zero by done.
  apply IH; [ done | done | ]. intros j Hj. apply Hs. by right.
Qed.

End OneCell.

Lemma cell_to_frac_total (cell : cell_type R) (cart frac : list R)
    (k : nat) :
  (3 <= length frac)%nat -> (k < 3)%nat ->
  (cell_to_frac cell cart frac).2.[k] = dot (row (gvecs cell) k) cart.
Proof.
  intros Hf Hk. apply list_lookup_total_correct.
  by apply cell_to_frac_lookup.
Qed.

Lemma active_dual (cell : cell_type R) :
  dual cell ->
  forall i j, i ∈ active (nvec cell) -> j ∈ active (nvec cell) ->
    dot (row (gvecs cell) i) (row (rvecs cell) j)
    = if decide (i = j) then 1 else 0.
Proof. intros Hdual i j Hi%active_elem Hj%active_elem. by apply Hdual. Qed.

Lemma active_NoDup (n : Z) : NoDup (active n).
Proof. apply NoDup_seq. Qed.

(** X6: in exact arithmetic, under duality, the reduction does not see a
    lattice translation: [cell_mic] gives the same result on [delta] and
    on [delta] translated by [cell_add_vec] with any counts [r]. *)
Theorem cell_mic_translation_invariant (cell : cell_type R)
    (delta : list R) (r : list Z) :
  cell_sized cell -> length delta = 3%nat -> (0 <= nvec cell <= 3)%Z ->
  (Z.to_nat (nvec cell) <= length r)%nat -> dual cell ->
  cell_mic (cell_add_vec delta cell r).1.1 cell = cell_mic delta cell.
Proof.
  intros Hs Hd Hn Hr Hdual.
  pose proof (active_below (nvec cell) ltac:(lia)) as Hact.
  rewrite cell_add_vec_sequential by done. cbn [fst].
  rewrite !cell_mic_sized_sequential
    by (done || by apply add_sequential_length).
  f_equal. apply mic_sequential_add_sequential; try done.
  - apply active_NoDup.
  - by apply active_dual.
Qed.

(** X7: in exact arithmetic, under duality, [cell_add_vec] with the
    counts [r] shifts the fractional coordinate along each active
    direction [k] by the integer [r[k]]. *)
Theorem cell_add_vec_shifts_frac (cell : cell_type R) (cart frac : list R)
    (r : list Z) (k : nat) :
  cell_sized cell -> length cart = 3%nat -> (0 <= nvec cell <= 3)%Z ->
  (Z.to_nat (nvec cell) <= length r)%nat -> (3 <= length frac)%nat ->
  dual cell -> (Z.of_nat k < nvec cell)%Z ->
  (cell_to_frac cell (cell_add_vec cart cell r).1.1 frac).2.[k]
  = (cell_to_frac cell cart frac).2.[k] + IZR r.[k].
Proof.
  intros Hs Hd Hn Hr Hf Hdual Hk.
  pose proof (active_below (nvec cell) ltac:(lia)) as Hact.
  rewrite !cell_to_frac_total by lia.
  rewrite cell_add_vec_sequential by done. cbn [fst].
  apply dot_add_sequential_dual; try done.
  - apply active_NoDup.
  - by apply active_elem.
  - intros j Hj. apply active_dual; [ done | by apply active_elem | done ].
Qed.

(** X8: in exact arithmetic, under duality, the displacement [cell_mic]
    returns has its fractional coordinate along every active direction in
    the half-open interval (-1/2, 1/2]. *)
Theorem cell_mic_frac_range (cell : cell_type R) (delta frac : list R)
    (k : nat) :
  cell_sized cell -> length delta = 3%nat -> (0 <= nvec cell <= 3)%Z ->
  (3 <= length frac)%nat -> dual cell -> (Z.of_nat k < nvec cell)%Z ->
  - (1 / 2) < (cell_to_frac cell (cell_mic delta cell).1 frac).2.[k] <= 1 / 2.
Proof.
  intros Hs Hd Hn Hf Hdual Hk.
  rewrite cell_to_frac_total by lia.
  rewrite cell_mic_sized_sequential by done. cbn [fst].
  apply (first_pass cell Hs (active (nvec cell)) [] delta); try done.
  - apply active_NoDup.
  - intros j Hj%active_elem. lia.
  - by apply active_dual.
  - intros j Hj. by apply elem_of_nil in Hj.
  - by apply active_elem.
Qed.

(** X9: in exact arithmetic, under duality, the sequential counts of
    [cell_mic] are the independent counts of [cell_to_center]: reducing a
    vector is translating it by the centre [cell_to_center] computes for
    it. *)
Theorem cell_mic_is_center_translation (cell : cell_type R)
    (cart : list R) (center : list Z) :
  cell_sized cell -> length cart = 3%nat -> (0 <= nvec cell <= 3)%Z ->
  (Z.to_nat (nvec cell) <= length center)%nat -> dual cell ->
  cell_mic cart cell
  = ((cell_add_vec cart cell (cell_to_center cart cell center).2).1.1, cell).
Proof.
  intros Hs Hd Hn Hc Hdual.
  pose proof (active_below (nvec cell) ltac:(lia)) as Hact.
  rewrite cell_mic_sized_sequential, cell_add_vec_sequential by done.
  cbn [fst]. f_equal.
  apply mic_sequential_independent; try done.
  - apply active_NoDup.
  - by apply active_dual.
  - intros k Hk%active_elem.
    rewrite (list_lookup_total_correct _ _ _
               (cell_to_center_lookup cart cell center k Hs
                  ltac:(lia) Hc Hk)).
    unfold mic_count, nearest. simpl.
    by rewrite <- opp_IZR, Ztrunc_IZR.
Qed.

(** X10: in exact arithmetic, two translations compose into the
    translation by the sum of their counts, and the translation by the
    negated counts undoes a translation. *)
Theorem cell_add_vec_additive (cell : cell_type R) (delta : list R)
    (r r' : list Z) :
  cell_sized cell -> length delta = 3%nat -> (0 <= nvec cell <= 3)%Z ->
  (Z.to_nat (nvec cell) <= length r)%nat ->
  (Z.to_nat (nvec cell) <= length r')%nat ->
  (cell_add_vec (cell_add_vec delta cell r).1.1 cell r').1.1
  = (cell_add_vec delta cell (zip_with Z.add r r')).1.1 /\
  (cell_add_vec (cell_add_vec delta cell r).1.1 cell (Z.opp <$> r)).1.1
  = delta.
Proof.
  intros Hs Hd Hn Hr Hr'.
  pose proof (active_below (nvec cell) ltac:(lia)) as Hact.
  rewrite (cell_add_vec_sequential delta cell r) by done. cbn [fst].
  rewrite !cell_add_vec_sequential
    by (done || by apply add_sequential_length).
  cbn [fst]. split.
  - apply add_sequential_plus; try done.
    intros k Hk%active_elem.
    destruct (lookup_lt_is_Some_2 r k) as [x Hx]; [ lia | ].
    destruct (lookup_lt_is_Some_2 r' k) as [y Hy]; [ lia | ].
    rewrite (list_lookup_total_correct _ _ _ Hx),
      (list_lookup_total_correct _ _ _ Hy).
    apply list_lookup_total_correct.
    rewrite lookup_zip_with, Hx, Hy. reflexivity.
  - assert (forall k, k ∈ active (nvec cell) ->
              (replicate 3 0%Z).[k] = (r.[k] + (Z.opp <$> r).[k])%Z) as Hsum.
    { intros k Hk%active_elem.
      destruct (lookup_lt_is_Some_2 r k) as [x Hx]; [ lia | ].
      rewrite (list_lookup_total_correct _ _ _ Hx).
      rewrite (list_lookup_total_correct (Z.opp <$> r) k (- x)%Z)
        by (by rewrite list_lookup_fmap, Hx).
      rewrite (list_lookup_total_correct (replicate 3 0%Z) k 0%Z)
        by (apply lookup_replicate_2; lia).
      lia. }
    rewrite (add_sequential_plus cell Hs r (Z.opp <$> r) (replicate 3 0%Z))
      by done.
    apply add_sequential_zero; try done.
    intros k Hk%active_elem. apply list_lookup_total_correct.
    apply lookup_replicate_2. lia.
Qed.

(** X11: in exact arithmetic, under duality, translating a vector by the
    centre [cell_to_center] computes for it brings its fractional
    coordinate along every active direction into (-1/2, 1/2]. *)
Theorem cell_wrap_frac_range (cell : cell_type R) (cart frac : list R)
    (center : list Z) (k : nat) :
  cell_sized cell -> length cart = 3%nat -> (0 <= nvec cell <= 3)%Z ->
  (Z.to_nat (nvec cell) <= length center)%nat -> (3 <= length frac)%nat ->
  dual cell -> (Z.of_nat k < nvec cell)%Z ->
  - (1 / 2)
  < (cell_to_frac cell
       (cell_add_vec cart cell (cell_to_center cart cell center).2).1.1
       frac).2.[k]
  <= 1 / 2.
Proof.
  intros Hs Hd Hn Hc Hf Hdual Hk.
  pose proof (active_below (nvec cell) ltac:(lia)) as Hact.
  rewrite cell_to_frac_total by lia.
  rewrite cell_add_vec_sequential by done. cbn [fst].
  rewrite <- (mic_sequential_independent cell Hs); try done.
  - apply (first_pass cell Hs (active (nvec cell)) [] cart); try done.
    + apply active_NoDup.
    + intros j Hj%active_elem. lia.
    + by apply active_dual.
    + intros j Hj. by apply elem_of_nil in Hj.
    + by apply active_elem.
  - apply active_NoDup.
  - by apply active_dual.
  - intros j Hj%active_elem.
    rewrite (list_lookup_total_correct _ _ _
               (cell_to_center_lookup cart cell center j Hs
                  ltac:(lia) Hc Hj)).
    unfold mic_count, nearest. simpl.
    by rewrite <- opp_IZR, Ztrunc_IZR.
Qed.

End Lattice.

(** ** Volume and spacings, in exact arithmetic *)

Section Metric.
Local Open Scope R_scope.

(** Lagrange's identity: the Gram determinant of two vectors is the
    squared length of their cross product. *)
Lemma gram_cross (a b : list R) :
  dot a a * dot b b - dot a b * dot a b = dot (cross a b) (cross a b).
Proof. unfold dot, cross. simpl. ring. Qed.

Lemma dot_self_nonneg (a : list R) : 0 <= dot a a.
Proof. unfold dot. simpl. nra. Qed.

Lemma cauchy_schwarz (a b : list R) : dot a b * dot a b <= dot a a * dot b b.
Proof.
  pose proof (gram_cross a b). pose proof (dot_self_nonneg (cross a b)). lra.
Qed.

(** X12: in exact arithmetic the volume stored for [nvec = 2] is the
    length of the cross product of rows 0 and 1; the Gram determinant is
    never negative, so the clamp only meets the value 0. *)
Theorem cell_update_area (cell : cell_type R) (rv gv : list R) :
  length rv = 9%nat ->
  volume (cell_update cell rv gv 2)
  = norm (cross (row rv 0) (row rv 1)).
Proof.
  intros Hr. unfold norm. rewrite <- gram_cross.
  pose proof (cauchy_schwarz (row rv 0) (row rv 1)) as Hcs.
  explode rv Hr. unfold cell_update. simpl in *. unfold Rgtb.
  match goal with
  | |- context [Rgt_dec ?t 0] => destruct (Rgt_dec t 0) as [Hp | Hp]
  end; simpl; [ reflexivity | ].
  symmetry. apply sqrt_neg_0. lra.
Qed.

(** X13: degenerate rows give the volume 0 exactly, in exact arithmetic:
    for [nvec = 1] the volume is 0 exactly when row 0 is zero; for
    [nvec = 2] it is 0 when row 1 is a multiple of row 0; for [nvec = 3]
    it is 0 when row 2 is a combination of rows 0 and 1. *)
Theorem cell_update_degenerate (cell : cell_type R) (rv gv : list R)
    (s t : R) :
  length rv = 9%nat ->
  (volume (cell_update cell rv gv 1) = 0 <->
   rv.[0] = 0 /\ rv.[1] = 0 /\ rv.[2] = 0) /\
  ((forall j : nat, (j < 3)%nat -> rv.[3 + j] = s * rv.[j]) ->
   volume (cell_update cell rv gv 2) = 0) /\
  ((forall j : nat, (j < 3)%nat ->
      rv.[6 + j] = s * rv.[j] + t * rv.[3 + j]) ->
   volume (cell_update cell rv gv 3) = 0).
Proof.
  intros Hr. split; [ | split ].
  - explode rv Hr. simpl. split.
    + intros Hv. apply sqrt_eq_0 in Hv; [ | nra ].
      repeat split; nra.
    + intros (-> & -> & ->).
      replace (0 * 0 + 0 * 0 + 0 * 0) with 0 by ring. apply sqrt_0.
  - intros Hcol.
    pose proof (Hcol 0%nat ltac:(lia)) as H0.
    pose proof (Hcol 1%nat ltac:(lia)) as H1.
    pose proof (Hcol 2%nat ltac:(lia)) as H2.
    explode rv Hr. unfold cell_update. simpl in *. subst. unfold Rgtb.
    match goal with
    | |- context [Rgt_dec ?x 0] =>
        replace x with 0 by ring; destruct (Rgt_dec 0 0) as [Hp | Hp]
    end; [ lra | reflexivity ].
  - intros Hcop.
    pose proof (Hcop 0%nat ltac:(lia)) as H0.
    pose proof (Hcop 1%nat ltac:(lia)) as H1.
    pose proof (Hcop 2%nat ltac:(lia)) as H2.
    explode rv Hr. simpl in *. subst.
    match goal with |- Rabs ?x = 0 => replace x with 0 by ring end.
    apply Rabs_R0.
Qed.

(** X14: in exact arithmetic, when row [i] of [gvecs] and row [i] of
    [rvecs] have the dot product 1, both spacings [cell_update] stores at
    [i] are positive, and each is at most the length of the row of the
    other matrix: [rspacings[i] <= |rvecs row i|] and
    [gspacings[i] <= |gvecs row i|]. *)
Theorem cell_update_spacing_bound (cell : cell_type R) (rv gv : list R)
    (n : Z) (i : nat) :
  cell_sized cell -> length rv = 9%nat -> length gv = 9%nat ->
  (i < 3)%nat -> dot (row gv i) (row rv i) = 1 ->
  0 < (rspacings (cell_update cell rv gv n)).[i] <= norm (row rv i) /\
  0 < (gspacings (cell_update cell rv gv n)).[i] <= norm (row gv i).
Proof.
  intros Hs Hrv Hgv Hi Hdual.
  destruct (cell_update_stores cell rv gv n Hs Hrv Hgv)
    as (_ & _ & _ & -> & ->).
  rewrite !(list_lookup_total_correct _ _ _ (spacing_lookup _ i Hi)).
  unfold spacing, norm. simpl.
  set (g := row gv i) in *. set (r := row rv i) in *.
  pose proof (cauchy_schwarz g r) as Hcs. rewrite Hdual in Hcs.
  pose proof (dot_self_nonneg g) as Hg. pose proof (dot_self_nonneg r) as Hr.
  assert (0 < dot g g) as Hgp by nra.
  assert (0 < dot r r) as Hrp by nra.
  assert (1 <= sqrt (dot g g) * sqrt (dot r r)) as Hprod.
  { rewrite <- sqrt_mult by done. rewrite <- sqrt_1 at 1.
    apply sqrt_le_1; lra. }
  pose proof (sqrt_lt_R0 _ Hgp) as Hsg. pose proof (sqrt_lt_R0 _ Hrp) as Hsr.
  assert (forall x y, 0 < x -> 0 < y -> 1 <= x * y -> 0 < 1 / x <= y) as Hdiv.
  { intros x y Hx Hy Hxy. split.
    - apply Rdiv_lt_0_compat; lra.
    - apply (Rmult_le_reg_l x); [ done | ]. field_simplify; lra. }
  split; apply Hdiv; try done. by rewrite Rmult_comm.
Qed.

End Metric.

(** ** More concrete runs *)

(** X1 at the cubic cell with one periodic direction: all three
    projections are stored. *)
Lemma cell_to_frac_projections_witness :
  let cart := [7; -3; 12]%float in
  let frac := [1; 1; 1; 1]%float in
  (cell_to_frac (cubic 1) cart frac).1 = (cubic 1, cart) /\
  length (cell_to_frac (cubic 1) cart frac).2 = length frac /\
  (forall k : nat, (k < 3)%nat ->
     (cell_to_frac (cubic 1) cart frac).2 !! k
     = Some (dot (row (gvecs (cubic 1)) k) cart)) /\
  (forall k : nat, (3 <= k)%nat ->
     (cell_to_frac (cubic 1) cart frac).2 !! k = frac !! k).
Proof.
  intros cart frac.
  apply (cell_to_frac_projections (cubic 1) cart frac). simpl. lia.
Defined.

Example to_frac_cubic :
  cell_to_frac (cubic 1) [7; -3; 12]%float [1; 1; 1; 1]%float
  = (cubic 1, [7; -3; 12]%float, [0.875; -0.375; 1.5; 1]%float).
Proof. vm_compute. reflexivity. Qed.

(** X2 at the cubic cell, along the last direction. *)
Lemma cell_to_center_rounds_frac_witness :
  let cart := [7; -3; 12]%float in
  (cell_to_center cart (cubic 3) [4; 5; 6]%Z).2 !! 2%nat
  = Some (d_to_long
            (d_neg (d_ceil (d_sub
               (cell_to_frac (cubic 3) cart [1; 1; 1]%float).2.[2]
               d_half)))).
Proof.
  intros cart.
  apply (cell_to_center_rounds_frac cart (cubic 3) [4; 5; 6]%Z
           [1; 1; 1]%float 2%nat).
  - repeat split.
  - simpl. lia.
  - simpl. lia.
  - simpl. lia.
  - simpl. lia.
Defined.

(** X3: the blank cell and the cubic cell after the same update. *)
Lemma cell_update_forgets_witness :
  cell_update blank [1; 2; 3; 4; 5; 6; 7; 8; 10]%float cubic_gvecs 3
  = cell_update (cubic 1) [1; 2; 3; 4; 5; 6; 7; 8; 10]%float cubic_gvecs 3.
Proof.
  apply (cell_update_forgets blank (cubic 1)
           [1; 2; 3; 4; 5; 6; 7; 8; 10]%float cubic_gvecs 3).
  - repeat split.
  - repeat split.
  - reflexivity.
  - reflexivity.
  - lia.
Defined.

(** X4 at a count outside 0..3. *)
Lemma cell_update_read_back_witness :
  let cell' := cell_update blank cubic_rvecs cubic_gvecs 4 in
  let out9 := replicate 9 1%float in
  let out3 := replicate 3 1%float in
  cell_get_nvec cell' = 4%Z /\
  (cell_copy_rvecs cell' out9 1).2 = cubic_rvecs /\
  (cell_copy_gvecs cell' out9 1).2 = cubic_gvecs /\
  (cell_copy_rspacings cell' out3 1).2
  = [spacing cubic_gvecs 0; spacing cubic_gvecs 1; spacing cubic_gvecs 2] /\
  (cell_copy_gspacings cell' out3 1).2
  = [spacing cubic_rvecs 0; spacing cubic_rvecs 1; spacing cubic_rvecs 2].
Proof.
  intros cell' out9 out3.
  apply (cell_update_read_back blank cubic_rvecs cubic_gvecs 4 out9 out3 1).
  - repeat split.
  - reflexivity.
  - reflexivity.
  - reflexivity.
  - reflexivity.
  - lia.
Defined.

(** X5 at the counts -1 and 7. *)
Lemma invalid_nvec_runs_all_directions_witness :
  let delta := [7; -3; 12]%float in
  let center := [4; 5; 6]%Z in
  cell_mic delta (cubic (-1))
  = (foldl (fun d k => mic_step (cubic (-1)) k d) delta [0; 1; 2]%nat,
     cubic (-1)) /\
  (forall k : nat, (k < 3)%nat ->
     (cell_to_center delta (cubic (-1)) center).2 !! k
     = Some (d_to_long
               (d_neg (nearest (dot (row (gvecs (cubic (-1))) k) delta))))) /\
  cell_add_vec delta (cubic (-1)) center
  = (add_sequential (cubic (-1)) [0; 1; 2]%nat center delta, cubic (-1),
     center).
Proof.
  intros delta center.
  apply (invalid_nvec_runs_all_directions (cubic (-1)) delta center center).
  - repeat split.
  - reflexivity.
  - simpl. lia.
  - discriminate.
  - discriminate.
  - discriminate.
Defined.

Example mic_count_7 :
  cell_mic [7; -3; 12]%float (cubic 7) = ([-1; -3; 4]%float, cubic 7).
Proof. vm_compute. reflexivity. Qed.

Section MoreExactRuns.
Local Open Scope R_scope.

Lemma skew_cell_sized (n : Z) : cell_sized (skew_cell n).
Proof. repeat split. Qed.

(** The rows of the skewed cell are dual. *)
Lemma skew_cell_dual (n : Z) : (n <= 3)%Z -> dual (skew_cell n).
Proof.
  intros Hn i j Hi Hj. cbn [nvec skew_cell] in Hi, Hj.
  destruct i as [|[|[|i]]]; [ | | | lia ];
    (destruct j as [|[|[|j]]]; [ | | | lia ]);
    unfold dot; simpl; ring.
Qed.

(** X6 at the skewed cell with two periodic directions. *)
Lemma cell_mic_translation_invariant_witness :
  let delta := [7 / 4; - (1 / 4); 5 / 2] in
  cell_mic (cell_add_vec delta (skew_cell 2) [3; -2]%Z).1.1 (skew_cell 2)
  = cell_mic delta (skew_cell 2).
Proof.
  intros delta.
  apply (cell_mic_translation_invariant (skew_cell 2) delta [3; -2]%Z).
  - repeat split.
  - reflexivity.
  - simpl. lia.
  - simpl. lia.
  - apply skew_cell_dual. lia.
Defined.

(** X7 at the skewed cell, along direction 1. *)
Lemma cell_add_vec_shifts_frac_witness :
  let cart := [7 / 4; - (1 / 4); 5 / 2] in
  let frac := [0; 0; 0] in
  (cell_to_frac (skew_cell 2)
     (cell_add_vec cart (skew_cell 2) [3; -2]%Z).1.1 frac).2.[1]
  = (cell_to_frac (skew_cell 2) cart frac).2.[1] + IZR [3; -2]%Z.[1].
Proof.
  intros cart frac.
  apply (cell_add_vec_shifts_frac (skew_cell 2) cart frac [3; -2]%Z 1%nat).
  - repeat split.
  - reflexivity.
  - simpl. lia.
  - simpl. lia.
  - simpl. lia.
  - apply skew_cell_dual. lia.
  - simpl. lia.
Defined.

(** X8 at the skewed cell, along direction 0. *)
Lemma cell_mic_frac_range_witness :
  let delta := [7 / 4; - (1 / 4); 5 / 2] in
  - (1 / 2)
  < (cell_to_frac (skew_cell 3) (cell_mic delta (skew_cell 3)).1
       [0; 0; 0]).2.[0]
  <= 1 / 2.
Proof.
  intros delta.
  apply (cell_mic_frac_range (skew_cell 3) delta [0; 0; 0] 0%nat).
  - repeat split.
  - reflexivity.
  - simpl. lia.
  - simpl. lia.
  - apply skew_cell_dual. lia.
  - simpl. lia.
Defined.

(** X9 at the skewed cell. *)
Lemma cell_mic_is_center_translation_witness :
  let cart := [7 / 4; - (1 / 4); 5 / 2] in
  cell_mic cart (skew_cell 3)
  = ((cell_add_vec cart (skew_cell 3)
        (cell_to_center cart (skew_cell 3) [0; 0; 0]%Z).2).1.1,
     skew_cell 3).
Proof.
  intros cart.
  apply (cell_mic_is_center_translation (skew_cell 3) cart [0; 0; 0]%Z).
  - repeat split.
  - reflexivity.
  - simpl. lia.
  - simpl. lia.
  - apply skew_cell_dual. lia.
Defined.

(** X10 at the skewed cell. *)
Lemma cell_add_vec_additive_witness :
  let delta := [7 / 4; - (1 / 4); 5 / 2] in
  let r := [3; -2; 1]%Z in
  let r' := [-1; 5; 0]%Z in
  (cell_add_vec (cell_add_vec delta (skew_cell 3) r).1.1 (skew_cell 3)
     r').1.1
  = (cell_add_vec delta (skew_cell 3) (zip_with Z.add r r')).1.1 /\
  (cell_add_vec (cell_add_vec delta (skew_cell 3) r).1.1 (skew_cell 3)
     (Z.opp <$> r)).1.1
  = delta.
Proof.
  intros delta r r'.
  apply (cell_add_vec_additive (skew_cell 3) delta r r').
  - repeat split.
  - reflexivity.
  - simpl. lia.
  - simpl. lia.
  - simpl. lia.
Defined.

(** X11 at the skewed cell, along direction 1. *)
Lemma cell_wrap_frac_range_witness :
  let cart := [7 / 4; - (1 / 4); 5 / 2] in
  - (1 / 2)
  < (cell_to_frac (skew_cell 3)
       (cell_add_vec cart (skew_cell 3)
          (cell_to_center cart (skew_cell 3) [0; 0; 0]%Z).2).1.1
       [0; 0; 0]).2.[1]
  <= 1 / 2.
Proof.
  intros cart.
  apply (cell_wrap_frac_range (skew_cell 3) cart [0; 0; 0] [0; 0; 0]%Z
           1%nat).
  - repeat split.
  - reflexivity.
  - simpl. lia.
  - simpl. lia.
  - simpl. lia.
  - apply skew_cell_dual. lia.
  - simpl. lia.
Defined.

(** X12 at the rows of the skewed cell. *)
Lemma cell_update_area_witness :
  volume (cell_update (unit_cell 0) skew_rvecs skew_gvecs 2)
  = norm (cross (row skew_rvecs 0) (row skew_rvecs 1)).
Proof.
  apply (cell_update_area (unit_cell 0) skew_rvecs skew_gvecs).
  reflexivity.
Defined.

(** X13 at three parallel rows: row 1 is twice row 0, and row 2 is
    twice row 0 plus row 1. *)
Lemma cell_update_degenerate_witness :
  let rv := [1; 2; 3; 2; 4; 6; 4; 8; 12] in
  volume (cell_update (unit_cell 0) rv skew_gvecs 2) = 0 /\
  volume (cell_update (unit_cell 0) rv skew_gvecs 3) = 0.
Proof.
  intros rv.
  destruct (cell_update_degenerate (unit_cell 0) rv skew_gvecs 2 1)
    as (_ & H2 & H3); [ reflexivity | ].
  split.
  - apply H2. intros [|[|[|j]]] Hj; [ | | | lia ]; simpl; ring.
  - apply H3. intros [|[|[|j]]] Hj; [ | | | lia ]; simpl; ring.
Defined.

(** X14 at the skewed cell, along direction 0: the spacing is
    [1 / sqrt 2], the row has length 1. *)
Lemma cell_update_spacing_bound_witness :
  0 < (rspacings (cell_update (unit_cell 0) skew_rvecs skew_gvecs 3)).[0]
  <= norm (row skew_rvecs 0) /\
  0 < (gspacings (cell_update (unit_cell 0) skew_rvecs skew_gvecs 3)).[0]
  <= norm (row skew_gvecs 0).
Proof.
  apply (cell_update_spacing_bound (unit_cell 0) skew_rvecs skew_gvecs 3
           0%nat).
  - repeat split.
  - reflexivity.
  - reflexivity.
  - lia.
  - unfold dot. simpl. ring.
Defined.

End MoreExactRuns.
